(** * fix-ts2589: the import rewriter of convex-TS2589-fix

    A shallow embedding of the two copies of the script
    ([src/unnamed/part_000], version one, and
    [src/convex-TS2589-fix/fix-ts2589.mjs], version two) together with the
    part of ECMAScript the loop body relies on: [String.prototype.includes],
    [RegExp.prototype.test] and [String.prototype.replace] with a global
    regular expression, over strings of UTF-16 code units.

    The regular expressions of the scripts are kept as syntax trees and run
    by a backtracking matcher with continuations, in the order of choices
    the ECMAScript matcher takes (greedy quantifiers, leftmost alternative
    first).

    The file system the scripts walk is a tree of named entries;
    [findTsFiles], the loop over the files it returns and the counters are
    embedded over that tree, with [readFileSync] and [writeFileSync]
    returning [None] where Node throws. *)

From Stdlib Require Import String Ascii.
From Stdlib Require Import List NArith Bool Lia Arith.
Import ListNotations.

(** ** Texts: sequences of UTF-16 code units *)

Definition char := N.
Definition text := list char.

Definition str (s : string) : text :=
  map N_of_ascii (list_ascii_of_string s).

Definition LF : char := 10%N.
Definition DQ : char := 34%N.
Definition SQ : char := 39%N.
Definition LBRACE : char := 123%N.
Definition RBRACE : char := 125%N.
Definition DOT : char := 46%N.
Definition SLASH : char := 47%N.
Definition SEMI : char := 59%N.
Definition COMMA : char := 44%N.

Fixpoint text_eqb (a b : text) : bool :=
  match a, b with
  | [], [] => true
  | x :: a', y :: b' => N.eqb x y && text_eqb a' b'
  | _, _ => false
  end.

(** [w] is a prefix of [s]. *)
Fixpoint starts_with (w s : text) : bool :=
  match w, s with
  | [], _ => true
  | x :: w', y :: s' => N.eqb x y && starts_with w' s'
  | _ :: _, [] => false
  end.

(** [String.prototype.includes]: [w] occurs in [s] as a substring. *)
Fixpoint includes (s w : text) : bool :=
  starts_with w s ||
  match s with
  | [] => false
  | _ :: s' => includes s' w
  end.

(** Number of (possibly overlapping) occurrences of [w] in [s]. *)
Fixpoint occurrences (w s : text) : nat :=
  (if starts_with w s then 1 else 0) +
  match s with
  | [] => 0
  | _ :: s' => occurrences w s'
  end.

(** ** Character classes of the patterns *)

Definition in_range (lo hi c : N) : bool := N.leb lo c && N.leb c hi.

(** ECMAScript LineTerminator: LF, CR, LS, PS. *)
Definition isLineTerminator (c : char) : bool :=
  N.eqb c 10 || N.eqb c 13 || N.eqb c 8232 || N.eqb c 8233.

(** The class [\s]: WhiteSpace and LineTerminator code units. *)
Definition isSpace (c : char) : bool :=
  in_range 9 13 c || N.eqb c 32 || N.eqb c 160 || N.eqb c 5760 ||
  in_range 8192 8202 c || N.eqb c 8232 || N.eqb c 8233 || N.eqb c 8239 ||
  N.eqb c 8287 || N.eqb c 12288 || N.eqb c 65279.

(** The class [.] (no [s] flag): everything but a line terminator. *)
Definition isDot (c : char) : bool := negb (isLineTerminator c).

(** Word characters of [\b]: [A-Za-z0-9_]. *)
Definition isWordChar (c : char) : bool :=
  in_range 97 122 c || in_range 65 90 c || in_range 48 57 c || N.eqb c 95.

(** The class of everything but a closing brace. *)
Definition notRBrace (c : char) : bool := negb (N.eqb c RBRACE).
(** The class of the two quote characters, single and double. *)
Definition isQuote (c : char) : bool := N.eqb c SQ || N.eqb c DQ.
(** The class of a comma or a closing brace. *)
Definition isCommaOrRBrace (c : char) : bool := N.eqb c COMMA || N.eqb c RBRACE.

(** ** Regular expressions and the backtracking matcher *)

(** The constructs the patterns of the scripts are made of.  The patterns
    have one capture group, [(\.js)?], which nothing refers to (the
    templates hold no dollar sign), so groups are not recorded.  A star
    only ever stands on a character class in these patterns. *)

Inductive regex : Type :=
| Eps : regex
| Chr : char -> regex                 (* one literal code unit *)
| Lit : text -> regex                 (* a literal run of code units *)
| Cls : (char -> bool) -> regex       (* a character class *)
| Seq : regex -> regex -> regex
| Alt : regex -> regex -> regex       (* r1|r2, left first *)
| Opt : regex -> regex                (* r?, greedy *)
| StarCls : (char -> bool) -> regex   (* cls*, greedy *)
| Bol : regex                         (* ^ under the m flag *)
| Eol : regex                         (* $ under the m flag *)
| WordB : regex                       (* \b *)
| Look : regex -> regex.              (* (?=r) *)

Fixpoint seqs (l : list regex) : regex :=
  match l with
  | [] => Eps
  | r :: l' => Seq r (seqs l')
  end.

(** [cls+] *)
Definition PlusCls (p : char -> bool) : regex := Seq (Cls p) (StarCls p).

(** A matcher state: the code unit before the current index (if any) and
    the input from the current index on. *)
Definition state := (option char * text)%type.

(** The code unit before the index reached after reading [m]. *)
Fixpoint lastc (prev : option char) (m : text) : option char :=
  match m with
  | [] => prev
  | c :: m' => lastc (Some c) m'
  end.

Definition at_bol (prev : option char) : bool :=
  match prev with
  | None => true
  | Some c => isLineTerminator c
  end.

Definition at_eol (rest : text) : bool :=
  match rest with
  | [] => true
  | c :: _ => isLineTerminator c
  end.

Definition word_before (prev : option char) : bool :=
  match prev with
  | None => false
  | Some c => isWordChar c
  end.

Definition word_after (rest : text) : bool :=
  match rest with
  | [] => false
  | c :: _ => isWordChar c
  end.

Definition at_wordb (prev : option char) (rest : text) : bool :=
  xorb (word_before prev) (word_after rest).

(** Read the literal [w] off the front of the input. *)
Fixpoint read_lit (w : text) (prev : option char) (rest : text) : option state :=
  match w with
  | [] => Some (prev, rest)
  | x :: w' =>
      match rest with
      | y :: rest' => if N.eqb x y then read_lit w' (Some y) rest' else None
      | [] => None
      end
  end.

Section Matcher.
Variable A : Type.

(** Greedy [cls*]: take as many code units as the class allows, then give
    them back one at a time until the continuation succeeds. *)
Fixpoint star_cls (p : char -> bool) (k : state -> option A)
         (prev : option char) (rest : text) : option A :=
  match rest with
  | c :: rest' =>
      if p c then
        match star_cls p k (Some c) rest' with
        | Some x => Some x
        | None => k (prev, rest)
        end
      else k (prev, rest)
  | [] => k (prev, rest)
  end.
End Matcher.

Arguments star_cls {A} p k prev rest.

Fixpoint exec {A : Type} (r : regex) (k : state -> option A) (st : state)
  : option A :=
  match r with
  | Eps => k st
  | Chr c =>
      match snd st with
      | x :: rest' => if N.eqb c x then k (Some x, rest') else None
      | [] => None
      end
  | Lit w =>
      match read_lit w (fst st) (snd st) with
      | Some st' => k st'
      | None => None
      end
  | Cls p =>
      match snd st with
      | x :: rest' => if p x then k (Some x, rest') else None
      | [] => None
      end
  | Seq r1 r2 => exec r1 (exec r2 k) st
  | Alt r1 r2 =>
      match exec r1 k st with
      | Some x => Some x
      | None => exec r2 k st
      end
  | Opt r1 =>
      (* an empty iteration leads to the state [k st] is tried on below, so
         the quantifier's check for empty iterations changes nothing *)
      match exec r1 k st with
      | Some x => Some x
      | None => k st
      end
  | StarCls p => star_cls p k (fst st) (snd st)
  | Bol => if at_bol (fst st) then k st else None
  | Eol => if at_eol (snd st) then k st else None
  | WordB => if at_wordb (fst st) (snd st) then k st else None
  | Look r1 =>
      match exec r1 (@Some state) st with
      | Some _ => k st
      | None => None
      end
  end.

(** One attempt of the pattern at the current index: the state after the
    match, if there is one. *)
Definition match_here (r : regex) (prev : option char) (rest : text)
  : option state :=
  exec r (@Some state) (prev, rest).

(** The scan of RegExpBuiltinExec: try the current index, then the next. *)
Fixpoint search (r : regex) (prev : option char) (rest : text) : bool :=
  match match_here r prev rest with
  | Some _ => true
  | None =>
      match rest with
      | [] => false
      | c :: rest' => search r (Some c) rest'
      end
  end.

(** [RegExp.prototype.test] from index 0. *)
Definition test (r : regex) (s : text) : bool := search r None s.

(** Copy one code unit of the input and go on (the index moves by one). *)
Definition step_over (go : option char -> text -> text) (rest : text) : text :=
  match rest with
  | [] => []
  | c :: rest' => c :: go (Some c) rest'
  end.

(** [String.prototype.replace] with a global pattern and a replacement
    string: every match found by the left-to-right scan is replaced, the
    scan resuming at the end of the match (one unit further after an empty
    match).  [fuel] bounds the number of scan steps. *)
Fixpoint replace_loop (r : regex) (rep : text) (fuel : nat)
         (prev : option char) (rest : text) : text :=
  match fuel with
  | 0 => rest
  | S fuel' =>
      match match_here r prev rest with
      | Some (prev', rest') =>
          if Nat.ltb (length rest') (length rest)
          then rep ++ replace_loop r rep fuel' prev' rest'
          else rep ++ step_over (replace_loop r rep fuel') rest
      | None => step_over (replace_loop r rep fuel') rest
      end
  end.

Definition replace (r : regex) (rep : text) (s : text) : text :=
  replace_loop r rep (S (length s)) None s.

(** ** The parts shared by the two versions of the script *)

(** No dollar sign in [t]: as a replacement string, [t] stands for itself. *)
Definition DOLLAR : char := 36%N.
Definition no_dollar (t : text) : bool :=
  forallb (fun c => negb (N.eqb c DOLLAR)) t.

(** The marker looked for by [content.includes('Bypass TS2589')]. *)
Definition marker : text := str "Bypass TS2589".

Definition internal : text := str "internal".
Definition api : text := str "api".

(** The tail shared by every pattern: the quoted module specifier
    [['"]\.\.?\/?.*\/_generated\/api(\.js)?['"]] (the capture group is
    never referred to). *)
Definition specifier : list regex :=
  [ Cls isQuote; Chr DOT; Opt (Chr DOT); Opt (Chr SLASH); StarCls isDot;
    Lit (str "/_generated/api"); Opt (Lit (str ".js")); Cls isQuote ].

(** [/^import\s+.*\{\s*NAME\s*[,}].*from\s+SPECIFIER/m], the pattern behind
    [hasInternalImport] and [hasApiImport]. *)
Definition detectRegex (name : text) : regex :=
  seqs ([ Bol; Lit (str "import"); PlusCls isSpace; StarCls isDot;
          Chr LBRACE; StarCls isSpace; Lit name; StarCls isSpace;
          Cls isCommaOrRBrace; StarCls isDot; Lit (str "from");
          PlusCls isSpace ] ++ specifier).

Definition hasInternalImport (content : text) : bool :=
  test (detectRegex internal) content.

Definition hasApiImport (content : text) : bool :=
  test (detectRegex api) content.

(** [relative(dirname(filePath), join(convexDir, '_generated/api.js'))] with
    the separators turned into forward slashes.  The files come from
    [findTsFiles(convexDir)], so the common ancestor is [convexDir] and the
    result is one [..] for each of the [depth] directories between
    [convexDir] and the file, followed by [_generated/api.js]. *)
Definition relPath (depth : nat) : text :=
  concat (repeat (str "../") depth) ++ str "_generated/api.js".

Definition importPath (depth : nat) : text :=
  let relPath := relPath depth in
  if starts_with (str ".") relPath then relPath else str "./" ++ relPath.

(** The lines of the replacement templates. *)
Definition bypassLine : text :=
  str "// Bypass TS2589 by using require() which doesn't trigger type inference".

Definition eslintLine : text :=
  str "// eslint-disable-next-line @typescript-eslint/no-explicit-any, @typescript-eslint/no-require-imports".

Definition requireLine (name importPath : text) : text :=
  str "const " ++ name ++ str " = require('" ++ importPath ++ str "')." ++
  name ++ str " as any;".

(** The template that binds one name. *)
Definition singleBlock (name importPath : text) : text :=
  bypassLine ++ [LF] ++ eslintLine ++ [LF] ++ requireLine name importPath.

(** The template that binds both names. *)
Definition combinedBlock (importPath : text) : text :=
  bypassLine ++ [LF] ++ eslintLine ++ [LF] ++ requireLine internal importPath ++
  [LF] ++ eslintLine ++ [LF] ++ requireLine api importPath.

(** What the loop body did with a file. *)
Inductive outcome : Type :=
| SkippedAlreadyPatched    (* the marker guard: skippedCount++, continue *)
| SkippedNoMatch           (* neither detection holds: skippedCount++, continue *)
| Fixed                    (* modified: the file is written, fixedCount++ *)
| SkippedUnchanged.        (* not modified after the rewrite rules: skippedCount++ *)

Record result : Type := mkResult {
  newContent : text;       (* the value of [newContent] ([content] on a skip) *)
  modified : bool;
  verdict : outcome
}.

Definition finish (newContent : text) (modified : bool) : result :=
  if modified then mkResult newContent true Fixed
  else mkResult newContent false SkippedUnchanged.

(** The file after the loop body: [writeFileSync] happens only when
    [modified] is set. *)
Definition written (content : text) (r : result) : text :=
  if modified r then newContent r else content.

(** ** Version one ([src/unnamed/part_000]) *)

Module V1.

(** [/^import\s+\{[^}]*BODY[^}]*\}\s+from\s+SPECIFIER;?\s*$/gm] *)
Definition importRegex (body : regex) : regex :=
  seqs ([ Bol; Lit (str "import"); PlusCls isSpace; Chr LBRACE;
          StarCls notRBrace; body; StarCls notRBrace; Chr RBRACE;
          PlusCls isSpace; Lit (str "from"); PlusCls isSpace ]
        ++ specifier ++ [ Opt (Chr SEMI); StarCls isSpace; Eol ]).

Definition combinedImportRegex : regex :=
  importRegex (Alt (Lit internal) (Lit api)).
Definition internalImportRegex : regex := importRegex (Lit internal).
Definition apiImportRegex : regex := importRegex (Lit api).

Definition processFile (depth : nat) (content : text) : result :=
  if includes content marker then
    mkResult content false SkippedAlreadyPatched
  else
    let hasInternalImport := hasInternalImport content in
    let hasApiImport := hasApiImport content in
    if negb hasInternalImport && negb hasApiImport then
      mkResult content false SkippedNoMatch
    else
      let importPath := importPath depth in
      let hasCombinedImport := hasInternalImport && hasApiImport in
      if hasCombinedImport then
        if test combinedImportRegex content then
          finish
            (replace combinedImportRegex (combinedBlock importPath) content)
            true
        else finish content false
      else if hasInternalImport then
        if test internalImportRegex content then
          finish
            (replace internalImportRegex (singleBlock internal importPath)
               content)
            true
        else finish content false
      else if hasApiImport then
        if test apiImportRegex content then
          finish
            (replace apiImportRegex (singleBlock api importPath) content)
            true
        else finish content false
      else finish content false.

End V1.

(** ** Version two ([src/convex-TS2589-fix/fix-ts2589.mjs]) *)

Module V2.

(** The common shape of the replacement patterns:
    [/^import\s+(?:type\s+)?\{BRACES\}\s+from\s+SPECIFIER;?.*$/gm]. *)
Definition importRegex (braces : list regex) : regex :=
  seqs ([ Bol; Lit (str "import"); PlusCls isSpace;
          Opt (Seq (Lit (str "type")) (PlusCls isSpace)); Chr LBRACE ]
        ++ braces ++
        [ Chr RBRACE; PlusCls isSpace; Lit (str "from"); PlusCls isSpace ]
        ++ specifier ++ [ Opt (Chr SEMI); StarCls isDot; Eol ]).

(** [[^}]*\bNAME\b] *)
Definition wordInBraces (name : text) : regex :=
  seqs [ StarCls notRBrace; WordB; Lit name; WordB ].

(** [(?=[^}]*\binternal\b)(?=[^}]*\bapi\b)[^}]*] between the braces. *)
Definition combinedImportRegex : regex :=
  importRegex [ Look (wordInBraces internal); Look (wordInBraces api);
                StarCls notRBrace ].

(** The same pattern without the [g] flag. *)
Definition sameLineCombinedRegex : regex := combinedImportRegex.

(** [[^}]*\bNAME\b[^}]*] between the braces. *)
Definition nameImportRegex (name : text) : regex :=
  importRegex [ StarCls notRBrace; WordB; Lit name; WordB;
                StarCls notRBrace ].

Definition internalImportRegex : regex := nameImportRegex internal.
Definition apiImportRegex : regex := nameImportRegex api.

Definition processFile (depth : nat) (content : text) : result :=
  if includes content marker then
    mkResult content false SkippedAlreadyPatched
  else
    let hasInternalImport := hasInternalImport content in
    let hasApiImport := hasApiImport content in
    if negb hasInternalImport && negb hasApiImport then
      mkResult content false SkippedNoMatch
    else
      let importPath := importPath depth in
      let hasSameLineCombined := test sameLineCombinedRegex content in
      if hasSameLineCombined then
        finish
          (replace combinedImportRegex (combinedBlock importPath) content)
          true
      else if hasInternalImport && hasApiImport then
        let beforeInternal := content in
        let afterInternal :=
          replace internalImportRegex (singleBlock internal importPath)
            content in
        let internalReplaced := negb (text_eqb beforeInternal afterInternal) in
        let beforeApi := afterInternal in
        let afterApi :=
          replace apiImportRegex (singleBlock api importPath) beforeApi in
        let apiReplaced := negb (text_eqb beforeApi afterApi) in
        finish afterApi (internalReplaced || apiReplaced)
      else if hasInternalImport then
        if test internalImportRegex content then
          let before := content in
          let after :=
            replace internalImportRegex (singleBlock internal importPath)
              content in
          finish after (negb (text_eqb before after))
        else finish content false
      else if hasApiImport then
        if test apiImportRegex content then
          let before := content in
          let after :=
            replace apiImportRegex (singleBlock api importPath) content in
          finish after (negb (text_eqb before after))
        else finish content false
      else finish content false.

(** The file on disk after the loop body has run on it. *)
Definition run (depth : nat) (content : text) : text :=
  written content (processFile depth content).

End V2.

(** ** The file tree, the walker and the main loop *)

(** The file system below [convexDir], as the script sees it through
    [readdirSync], [statSync], [readFileSync] and [writeFileSync]: a
    directory lists its entries by name, in the order [readdirSync] gives
    them; a regular file has a content. *)
#[warnings="-register-all"]
Inductive node : Type :=
| File (content : text)
| Dir (entries : list (text * node)).

(** A path below [convexDir]: the names from [convexDir] down, so that
    [join(dir, file)] is [dir ++ [file]] and [relative(convexDir, filePath)]
    is [filePath] itself. *)
Definition path := list text.

Definition generatedDir : text := str "_generated".
Definition nodeModulesDir : text := str "node_modules".
Definition tsSuffix : text := str ".ts".

(** [String.prototype.endsWith]: the last [length w] code units of [s] are
    [w]. *)
Definition endsWith (s w : text) : bool :=
  Nat.leb (length w) (length s) &&
  text_eqb (skipn (length s - length w) s) w.

(** One turn of the [for (const file of files)] loop of [findTsFiles]; [recur]
    is the recursive call on a sub-directory. *)
Definition visitEntry (recur : path -> node -> list path -> list path)
           (dir : path) (fileList : list path) (entry : text * node)
  : list path :=
  let file := fst entry in
  let filePath := dir ++ [file] in
  match snd entry with
  | Dir _ =>
      if negb (text_eqb file generatedDir) && negb (text_eqb file nodeModulesDir)
      then recur filePath (snd entry) fileList
      else fileList
  | File _ =>
      if endsWith file tsSuffix then fileList ++ [filePath] else fileList
  end.

(** [findTsFiles(dir, fileList)] on the directory [st] found at [dir].  (On
    a regular file [readdirSync] throws; the function only calls itself on
    entries for which [isDirectory()] holds.) *)
Fixpoint findTsFilesIn (dir : path) (st : node) (fileList : list path)
  {struct st} : list path :=
  match st with
  | File _ => fileList
  | Dir files =>
      (fix loop (files : list (text * node)) (fileList : list path)
         {struct files} : list path :=
         match files with
         | [] => fileList
         | (file, stat) :: files' =>
             loop files'
               (visitEntry
                  (fun filePath _ fileList => findTsFilesIn filePath stat fileList)
                  dir fileList (file, stat))
         end) files fileList
  end.

(** [findTsFiles(convexDir)]: [None] when [convexDir] is not a directory
    ([readdirSync] throws). *)
Definition findTsFiles (root : node) : option (list path) :=
  match root with
  | Dir _ => Some (findTsFilesIn [] root [])
  | File _ => None
  end.

(** The entry called [x] in a directory listing. *)
Fixpoint lookup (x : text) (entries : list (text * node)) : option node :=
  match entries with
  | [] => None
  | (y, st) :: entries' => if text_eqb y x then Some st else lookup x entries'
  end.

(** Put [st] in the place of the entry called [x]. *)
Fixpoint setEntry (x : text) (st : node) (entries : list (text * node))
  : list (text * node) :=
  match entries with
  | [] => []
  | (y, st') :: entries' =>
      if text_eqb y x then (y, st) :: entries'
      else (y, st') :: setEntry x st entries'
  end.

(** [readFileSync(filePath, 'utf-8')]: [None] when it throws (no such file,
    or a directory). *)
Fixpoint readFileSync (filePath : path) (root : node) : option text :=
  match filePath, root with
  | [], File content => Some content
  | x :: rest, Dir entries =>
      match lookup x entries with
      | Some st => readFileSync rest st
      | None => None
      end
  | _, _ => None
  end.

(** [writeFileSync(filePath, content, 'utf-8')]: the file is overwritten,
    or created when its directory exists and has no such entry; [None] when
    it throws (the path is a directory, or a directory on the way is
    missing or is a file). *)
Fixpoint writeFileSync (filePath : path) (content : text) (root : node)
  : option node :=
  match filePath, root with
  | [], File _ => Some (File content)
  | x :: rest, Dir entries =>
      match lookup x entries with
      | Some st =>
          match writeFileSync rest content st with
          | Some st' => Some (Dir (setEntry x st' entries))
          | None => None
          end
      | None =>
          match rest with
          | [] => Some (Dir (entries ++ [(x, File content)]))
          | _ :: _ => None
          end
      end
  | _, _ => None
  end.

(** [dirname(filePath)] *)
Definition dirname (filePath : path) : path := removelast filePath.

(** The state of a run: the files, the two counters and the paths printed
    after [Fixed:]. *)
Record runState : Type := mkRun {
  fs : node;
  fixedCount : nat;
  skippedCount : nat;
  fixedLog : list path
}.

(** The body of [for (const filePath of files)], for the loop body
    [processFile] of either version: read, rewrite, write back when
    modified, count.  [None] when a read or a write throws.  The depth that
    [importPath] depends on is the number of directories between [convexDir]
    and the file. *)
Definition loopBody (processFile : nat -> text -> result)
           (st : runState) (filePath : path) : option runState :=
  match readFileSync filePath (fs st) with
  | None => None
  | Some content =>
      let res := processFile (length (dirname filePath)) content in
      if modified res then
        match writeFileSync filePath (newContent res) (fs st) with
        | Some fs' =>
            Some (mkRun fs' (S (fixedCount st)) (skippedCount st)
                    (fixedLog st ++ [filePath]))
        | None => None
        end
      else
        Some (mkRun (fs st) (fixedCount st) (S (skippedCount st)) (fixedLog st))
  end.

Fixpoint forFiles (processFile : nat -> text -> result)
         (files : list path) (st : runState) : option runState :=
  match files with
  | [] => Some st
  | filePath :: files' =>
      match loopBody processFile st filePath with
      | Some st' => forFiles processFile files' st'
      | None => None
      end
  end.

(** The whole script: find the files, then run the loop from zeroed
    counters. *)
Definition main (processFile : nat -> text -> result) (root : node)
  : option runState :=
  match findTsFiles root with
  | Some files => forFiles processFile files (mkRun root 0 0 [])
  | None => None
  end.

(** * Definitions used by the statements *)

(** ** What a successful match looks like *)

(** [Matches r prev m rest]: the pattern [r] can read exactly [m] when
    [prev] is the code unit before it and [rest] is what follows. *)
Inductive Matches : regex -> option char -> text -> text -> Prop :=
| M_Eps prev rest : Matches Eps prev [] rest
| M_Chr c prev rest : Matches (Chr c) prev [c] rest
| M_Lit w prev rest : Matches (Lit w) prev w rest
| M_Cls p c prev rest : p c = true -> Matches (Cls p) prev [c] rest
| M_Seq r1 r2 prev m1 m2 rest :
    Matches r1 prev m1 (m2 ++ rest) ->
    Matches r2 (lastc prev m1) m2 rest ->
    Matches (Seq r1 r2) prev (m1 ++ m2) rest
| M_AltL r1 r2 prev m rest :
    Matches r1 prev m rest -> Matches (Alt r1 r2) prev m rest
| M_AltR r1 r2 prev m rest :
    Matches r2 prev m rest -> Matches (Alt r1 r2) prev m rest
| M_OptSome r prev m rest :
    Matches r prev m rest -> Matches (Opt r) prev m rest
| M_OptNone r prev rest : Matches (Opt r) prev [] rest
| M_Star p prev m rest :
    forallb p m = true -> Matches (StarCls p) prev m rest
| M_Bol prev rest : at_bol prev = true -> Matches Bol prev [] rest
| M_Eol prev rest : at_eol rest = true -> Matches Eol prev [] rest
| M_WordB prev rest : at_wordb prev rest = true -> Matches WordB prev [] rest
| M_Look r prev m rest' rest :
    Matches r prev m rest' -> rest = m ++ rest' ->
    Matches (Look r) prev [] rest.

(** Patterns whose matches do not depend on what stands around them. *)
Fixpoint ctx_free (r : regex) : bool :=
  match r with
  | Eps | Chr _ | Lit _ | Cls _ | StarCls _ => true
  | Seq r1 r2 | Alt r1 r2 => ctx_free r1 && ctx_free r2
  | Opt r1 => ctx_free r1
  | Bol | Eol | WordB | Look _ => false
  end.

(** The part of every replacement pattern between the closing brace and
    the tail: [\s+from\s+SPECIFIER;?]. *)
Definition fromClause : list regex :=
  [ PlusCls isSpace; Lit (str "from"); PlusCls isSpace ] ++ specifier ++
  [ Opt (Chr SEMI) ].

(** ** Names in brace lists *)

(** [w] stands at the front of [s] as a whole word: not glued to a word
    character on either side. *)
Definition word_here (w : text) (prev : option char) (s : text) : bool :=
  negb (word_before prev) && starts_with w s &&
  negb (word_after (skipn (length w) s)).

(** [w] occurs as a whole word in [s] before the first closing brace. *)
Fixpoint word_in_body (w : text) (prev : option char) (s : text) : bool :=
  match s with
  | [] => false
  | c :: s' =>
      notRBrace c && (word_here w prev s || word_in_body w (Some c) s')
  end.

(** Some brace list of [s] (what follows an opening brace, up to the first
    closing brace) holds [w] as a whole word. *)
Fixpoint word_in_braces (w : text) (s : text) : bool :=
  match s with
  | [] => false
  | c :: s' =>
      (N.eqb c LBRACE && word_in_body w (Some c) s') || word_in_braces w s'
  end.

(** Drop the white space at the front of [s]. *)
Fixpoint skip_spaces (s : text) : text :=
  match s with
  | c :: s' => if isSpace c then skip_spaces s' else s
  | [] => []
  end.

(** [s], the text after an opening brace, begins with [w] as the first name
    of the list: white space, [w], white space, then a comma or the closing
    brace. *)
Definition first_here (w : text) (s : text) : bool :=
  starts_with w (skip_spaces s) &&
  match skip_spaces (skipn (length w) (skip_spaces s)) with
  | c :: _ => isCommaOrRBrace c
  | [] => false
  end.

(** Some brace list of [s] has [w] as its first name. *)
Fixpoint first_in_braces (w : text) (s : text) : bool :=
  match s with
  | [] => false
  | c :: s' => (N.eqb c LBRACE && first_here w s') || first_in_braces w s'
  end.

(** [w] stands at the front of [s] glued to a word character: an occurrence
    of [w] that is only a part of a longer word. *)
Definition glued_here (w : text) (prev : option char) (s : text) : bool :=
  starts_with w s &&
  (word_before prev || word_after (skipn (length w) s)).

Fixpoint glued_in_body (w : text) (prev : option char) (s : text) : bool :=
  match s with
  | [] => false
  | c :: s' =>
      notRBrace c && (glued_here w prev s || glued_in_body w (Some c) s')
  end.

(** Some brace list of [s] holds [w] as a part of a longer word. *)
Fixpoint glued_in_braces (w : text) (s : text) : bool :=
  match s with
  | [] => false
  | c :: s' =>
      (N.eqb c LBRACE && glued_in_body w (Some c) s') || glued_in_braces w s'
  end.

(** A name that begins and ends with a word character. *)
Definition wordy (name : text) : Prop :=
  word_after name = true /\ forall prev, word_before (lastc prev name) = true.

(** A code unit of an identifier: an ASCII letter, a digit, [_] or [$], or
    a code unit above ASCII that is not white space (the letters of other
    alphabets are among them). *)
Definition isIdentChar (c : char) : bool :=
  isWordChar c || N.eqb c DOLLAR || (N.leb 128 c && negb (isSpace c)).

Definition ident_before (prev : option char) : bool :=
  match prev with
  | None => false
  | Some c => isIdentChar c
  end.

Definition ident_after (rest : text) : bool :=
  match rest with
  | [] => false
  | c :: _ => isIdentChar c
  end.

(** [w] stands at the front of [s] as a whole identifier: no identifier
    character on either side. *)
Definition ident_here (w : text) (prev : option char) (s : text) : bool :=
  negb (ident_before prev) && starts_with w s &&
  negb (ident_after (skipn (length w) s)).

Fixpoint ident_in_body (w : text) (prev : option char) (s : text) : bool :=
  match s with
  | [] => false
  | c :: s' =>
      notRBrace c && (ident_here w prev s || ident_in_body w (Some c) s')
  end.

(** Some brace list of [s] lists the identifier [w] itself (and not only
    an identifier that contains it). *)
Fixpoint ident_in_braces (w : text) (s : text) : bool :=
  match s with
  | [] => false
  | c :: s' =>
      (N.eqb c LBRACE && ident_in_body w (Some c) s') || ident_in_braces w s'
  end.

(** ** Imports both versions read alike *)










(** ** Frame: what a replacement pass leaves alone *)

(** [spliced rules prev s out]: [out] is [s] in which some segments, each a
    match of a pattern of [rules] where it stands, were replaced by the
    template that goes with the pattern, every other code unit being copied
    in order. *)
Inductive spliced (rules : list (regex * text))
  : option char -> text -> text -> Prop :=
| sp_end prev : spliced rules prev [] []
| sp_keep prev c s out :
    spliced rules (Some c) s out ->
    spliced rules prev (c :: s) (c :: out)
| sp_replace prev r rep m s out :
    In (r, rep) rules ->
    Matches r prev m s ->
    spliced rules (lastc prev m) s out ->
    spliced rules prev (m ++ s) (rep ++ out).


(** A pattern anchored like the replacement patterns: a match begins at a
    line start with the word [import] and ends at a line end. *)
Definition line_anchored (r : regex) : Prop :=
  forall prev m rest, Matches r prev m rest ->
    at_bol prev = true /\ starts_with (str "import") m = true /\
    at_eol rest = true.

(** The replacement patterns of version two, each with its template. *)
Definition rules (depth : nat) : list (regex * text) :=
  [ (V2.combinedImportRegex, combinedBlock (importPath depth));
    (V2.internalImportRegex, singleBlock internal (importPath depth));
    (V2.apiImportRegex, singleBlock api (importPath depth)) ].

(** The replacement patterns of version one, each with its template. *)
Definition rulesV1 (depth : nat) : list (regex * text) :=
  [ (V1.combinedImportRegex, combinedBlock (importPath depth));
    (V1.internalImportRegex, singleBlock internal (importPath depth));
    (V1.apiImportRegex, singleBlock api (importPath depth)) ].

(** The lines of a text, cut at the line terminators. *)
Fixpoint lines_from (cur : text) (s : text) : list text :=
  match s with
  | [] => [rev cur]
  | c :: s' =>
      if isLineTerminator c then rev cur :: lines_from [] s'
      else lines_from (c :: cur) s'
  end.

Definition lines (s : text) : list text := lines_from [] s.

Definition has_line (l s : text) : bool := existsb (text_eqb l) (lines s).

(** A line, taken alone, is matched by none of the replacement patterns. *)
Definition unmatched_line (l : text) : bool :=
  negb (test V2.combinedImportRegex l) &&
  negb (test V2.internalImportRegex l) &&
  negb (test V2.apiImportRegex l).

(** ** Files a walk should list *)

(** Names are unique in a list. *)
Fixpoint uniqueNames (l : list text) : bool :=
  match l with
  | [] => true
  | x :: l' => negb (existsb (text_eqb x) l') && uniqueNames l'
  end.

(** A file tree as a file system has it: no directory lists a name twice. *)
Fixpoint wellFormed (st : node) : bool :=
  match st with
  | File _ => true
  | Dir entries =>
      uniqueNames (map fst entries) &&
      forallb (fun entry => wellFormed (snd entry)) entries
  end.

(** A directory name the walk goes into. *)
Definition walkedDir (file : text) : bool :=
  negb (text_eqb file generatedDir) && negb (text_eqb file nodeModulesDir).

(** [tsFileAt st q]: going down from the directory [st] along [q], through
    directories the walk goes into, one reaches a regular file whose name
    ends in [.ts]. *)
Inductive tsFileAt : node -> path -> Prop :=
| ts_file entries file content :
    In (file, File content) entries ->
    endsWith file tsSuffix = true ->
    tsFileAt (Dir entries) [file]
| ts_dir entries file sub rest :
    In (file, Dir sub) entries ->
    walkedDir file = true ->
    tsFileAt (Dir sub) rest ->
    tsFileAt (Dir entries) (file :: rest).

(** The tree with the contents of its files blanked: what [readdirSync]
    and [statSync] see of it. *)
Fixpoint shape (st : node) : node :=
  match st with
  | File _ => File []
  | Dir entries => Dir (map (fun entry => (fst entry, shape (snd entry))) entries)
  end.

(** The file at [filePath] is one the loop body modifies. *)
Definition fixedAt (processFile : nat -> text -> result) (root : node)
           (filePath : path) : bool :=
  match readFileSync filePath root with
  | Some content => modified (processFile (length (dirname filePath)) content)
  | None => false
  end.

(** The last name of a path. *)
Definition basename (filePath : path) : text := last filePath [].

(** A path the walk lists when a regular file lies there. *)
Definition listed (filePath : path) : bool :=
  endsWith (basename filePath) tsSuffix &&
  forallb walkedDir (dirname filePath).

(** No listed file has a brace list with a name that merely contains
    [internal] or [api]. *)
Definition noGluedNames (root : node) (files : list path) : bool :=
  forallb (fun filePath =>
             match readFileSync filePath root with
             | Some content =>
                 negb (glued_in_braces internal content) &&
                 negb (glued_in_braces api content)
             | None => true
             end) files.

(** ** Fixtures *)

(** [import { NAMES } from "PATH";] *)
Definition importLine (names path : text) : text :=
  str "import { " ++ names ++ str " } from " ++ [DQ] ++ path ++ [DQ] ++ str ";".

Definition internalFixture : text :=
  importLine (str "internal") (str "../_generated/api").

Definition apiFixture : text :=
  importLine (str "api") (str "../_generated/api").

Definition combinedFixture : text :=
  importLine (str "api, internal") (str "./_generated/api.js").

Definition separateFixture : text :=
  internalFixture ++ [LF] ++ apiFixture.

Definition unrelatedFixture : text :=
  importLine (str "internalFoo") (str "../_generated/api").

(** An identifier that holds [internal] followed by a dollar sign. *)
Definition dollarFixture : text :=
  importLine (str "internal$") (str "../_generated/api").




(** The two names imported from another module. *)
Definition otherModuleFixture : text :=
  importLine (str "internal, api") (str "./helpers/api").

(** A file without any import. *)
Definition plainFixture : text := str "export const answer = 42;".

(** A default import next to the named one: the detection holds, the
    replacement pattern (which wants the brace right after [import]) finds
    nothing. *)
Definition defaultAndNamedImport : text :=
  str "import helpers, { internal } from " ++ [DQ] ++ str "../_generated/api"
  ++ [DQ] ++ str ";".

(** [internal] listed after another name. *)
Definition laterNameFixture : text :=
  importLine (str "foo, internal") (str "../_generated/api").

(** Both names listed after another name. *)
Definition laterBothFixture : text :=
  importLine (str "foo, internal, api") (str "./_generated/api").

(** A text that already holds the marker, followed by a same-line import of
    both names. *)
Definition markedCombinedFixture : text :=
  str "// Bypass TS2589" ++ [LF] ++ combinedFixture.

(** An import written over three lines, then a line of code. *)
Definition multilineFixture : text :=
  str "import {" ++ [LF] ++ str "  internal" ++ [LF] ++ str "} from " ++
  [DQ] ++ str "../_generated/api" ++ [DQ] ++ str ";" ++ [LF] ++
  str "export const n = 1;".



(** A small tree: two files to fix, one of them in a sub-directory, a file
    without imports, and files the walk must not reach or list. *)
Definition sampleTree : node :=
  Dir [ (str "tasks.ts",
         File (importLine (str "internal") (str "./_generated/api")));
        (str "_generated",
         Dir [ (str "api.ts", File (str "export const api = {};")) ]);
        (str "lib",
         Dir [ (str "jobs.ts", File internalFixture);
               (str "notes.md", File internalFixture);
               (str "node_modules",
                Dir [ (str "dep.ts", File internalFixture) ]) ]);
        (str "plain.ts", File plainFixture) ].

(** * Properties *)

(** ** Texts *)

Lemma text_eqb_eq (a b : text) : text_eqb a b = true <-> a = b.
Proof.
  revert b; induction a as [|x a IH]; intros [|y b]; simpl;
    try (split; [discriminate | discriminate]); try tauto.
  rewrite andb_true_iff, N.eqb_eq, IH.
  split; [intros [-> ->]; reflexivity | intros H; inversion H; auto].
Qed.

Lemma text_eqb_refl (a : text) : text_eqb a a = true.
Proof. apply text_eqb_eq; reflexivity. Qed.

Lemma text_neqb_neq (a b : text) : negb (text_eqb a b) = true <-> a <> b.
Proof.
  rewrite negb_true_iff, <- not_true_iff_false, text_eqb_eq; tauto.
Qed.

Lemma starts_with_prefix (w s : text) :
  starts_with w s = true <-> exists t, s = w ++ t.
Proof.
  revert s; induction w as [|x w IH]; intros s; simpl.
  - split; [intros _; exists s; reflexivity | reflexivity].
  - destruct s as [|y s].
    + split; [discriminate | intros [t Ht]; discriminate].
    + rewrite andb_true_iff, N.eqb_eq, IH. split.
      * intros [-> [t ->]]; exists t; reflexivity.
      * intros [t Ht]; inversion Ht; subst; split; [reflexivity | exists t; reflexivity].
Qed.

Lemma starts_with_app (w t : text) : starts_with w (w ++ t) = true.
Proof. apply starts_with_prefix; exists t; reflexivity. Qed.

Lemma includes_infix (s w : text) :
  includes s w = true <-> exists a b, s = a ++ w ++ b.
Proof.
  induction s as [|c s IH].
  - simpl. rewrite orb_false_r, starts_with_prefix. split.
    + intros [t Ht]; exists [], t; exact Ht.
    + intros [a [b H]]. destruct a; [exists b; exact H | discriminate].
  - cbn [includes]. rewrite orb_true_iff, starts_with_prefix, IH. split.
    + intros [[t Ht] | [a [b H]]].
      * exists [], t; exact Ht.
      * exists (c :: a), b; rewrite H; reflexivity.
    + intros [[|x a] [b H]].
      * left; exists b; exact H.
      * right; inversion H; subst; exists a, b; reflexivity.
Qed.

Lemma includes_within (a x b w : text) :
  includes x w = true -> includes (a ++ x ++ b) w = true.
Proof.
  rewrite !includes_infix. intros [u [v ->]].
  exists (a ++ u), (v ++ b). rewrite <- !app_assoc. reflexivity.
Qed.

Lemma includes_differs (s t w : text) :
  includes s w = false -> includes t w = true -> s <> t.
Proof. intros Hs Ht ->. congruence. Qed.

(** Every template carries the marker, whatever the path. *)
Lemma singleBlock_marker (name p : text) :
  includes (singleBlock name p) marker = true.
Proof.
  apply includes_infix. exists (str "// "). eexists.
  unfold singleBlock, bypassLine. reflexivity.
Qed.

Lemma combinedBlock_marker (p : text) :
  includes (combinedBlock p) marker = true.
Proof.
  apply includes_infix. exists (str "// "). eexists.
  unfold combinedBlock, bypassLine. reflexivity.
Qed.

(** ** The global replacement, for any pattern *)

Section Replace.
Variables (r : regex) (rep : text).

(** A pass either leaves the text as it is or inserts the replacement. *)
Lemma replace_loop_same_or_inserts fuel prev rest :
  replace_loop r rep fuel prev rest = rest \/
  exists a b, replace_loop r rep fuel prev rest = a ++ rep ++ b.
Proof.
  revert prev rest; induction fuel as [|fuel IH]; intros prev rest; simpl.
  - left; reflexivity.
  - assert (Hstep : step_over (replace_loop r rep fuel) rest = rest \/
                    exists a b, step_over (replace_loop r rep fuel) rest
                                = a ++ rep ++ b).
    { destruct rest as [|c rest]; simpl; [left; reflexivity|].
      destruct (IH (Some c) rest) as [-> | [a [b ->]]];
        [left; reflexivity | right; exists (c :: a), b; reflexivity]. }
    destruct (match_here r prev rest) as [[prev' rest']|]; [|exact Hstep].
    right. destruct (Nat.ltb _ _); exists []; eexists; reflexivity.
Qed.

Lemma replace_same_or_inserts s :
  replace r rep s = s \/ exists a b, replace r rep s = a ++ rep ++ b.
Proof. apply replace_loop_same_or_inserts. Qed.

(** Where the pattern is found, the pass inserts the replacement. *)
Lemma search_replace_loop fuel prev rest :
  search r prev rest = true -> length rest < fuel ->
  exists a b, replace_loop r rep fuel prev rest = a ++ rep ++ b.
Proof.
  revert fuel prev; induction rest as [|c rest IH]; intros fuel prev.
  - simpl. destruct fuel as [|fuel]; [lia|]. intros H _. simpl.
    destruct (match_here r prev []) as [[prev' rest']|]; [|discriminate].
    exists []; eexists; reflexivity.
  - cbn [search]. destruct fuel as [|fuel]; [simpl; lia|]. intros H Hf.
    cbn [replace_loop].
    destruct (match_here r prev (c :: rest)) as [[prev' rest']|].
    + destruct (Nat.ltb _ _); exists []; eexists; reflexivity.
    + simpl in Hf. destruct (IH fuel (Some c) H) as [a [b Hab]]; [lia|].
      exists (c :: a), b. simpl. rewrite Hab. reflexivity.
Qed.

Lemma test_replace_inserts s :
  test r s = true -> exists a b, replace r rep s = a ++ rep ++ b.
Proof. intros H. apply search_replace_loop; [exact H | lia]. Qed.

(** Where the pattern is not found, the pass is the identity. *)
Lemma search_replace_loop_none fuel prev rest :
  search r prev rest = false -> replace_loop r rep fuel prev rest = rest.
Proof.
  revert fuel prev; induction rest as [|c rest IH]; intros fuel prev;
    cbn [search]; destruct fuel as [|fuel]; try reflexivity; cbn [replace_loop].
  - destruct (match_here r prev []); [discriminate | reflexivity].
  - destruct (match_here r prev (c :: rest)); [discriminate|].
    intros H. simpl. rewrite IH by exact H. reflexivity.
Qed.

Lemma test_false_replace s : test r s = false -> replace r rep s = s.
Proof. apply search_replace_loop_none. Qed.
End Replace.

(** ** The loop body of version two *)

Lemma finish_newContent n m : newContent (finish n m) = n.
Proof. destruct m; reflexivity. Qed.

Lemma finish_modified n m : modified (finish n m) = m.
Proof. destruct m; reflexivity. Qed.

(** The marker guard. *)
Lemma V2_marker_guard depth content :
  includes content marker = true ->
  V2.processFile depth content = mkResult content false SkippedAlreadyPatched.
Proof. intros H. unfold V2.processFile. rewrite H. reflexivity. Qed.

(** The detection gate. *)
Lemma V2_detection_gate depth content :
  includes content marker = false ->
  hasInternalImport content = false -> hasApiImport content = false ->
  V2.processFile depth content = mkResult content false SkippedNoMatch.
Proof.
  intros Hm Hi Ha. unfold V2.processFile. rewrite Hm, Hi, Ha. reflexivity.
Qed.

(** On a text without the marker, a set flag means the marker was inserted
    and a clear flag means the text was left as it was. *)
Lemma V2_flag_sound depth content :
  includes content marker = false ->
  let res := V2.processFile depth content in
  (modified res = true -> includes (newContent res) marker = true) /\
  (modified res = false -> newContent res = content).
Proof.
  intros Hm. unfold V2.processFile. rewrite Hm.
  set (p := importPath depth).
  destruct (hasInternalImport content) eqn:Hi;
    destruct (hasApiImport content) eqn:Ha; cbv zeta; cbn [negb andb];
    try (split; [discriminate | reflexivity]).
  all: destruct (test V2.sameLineCombinedRegex content) eqn:Hc;
    [ rewrite finish_newContent, finish_modified; split; [intros _ | discriminate];
      destruct (test_replace_inserts V2.combinedImportRegex (combinedBlock p) content Hc)
        as [a [b ->]]; apply includes_within, combinedBlock_marker | ].
  - (* both detections hold: the two passes *)
    rewrite finish_newContent, finish_modified.
    set (c1 := replace V2.internalImportRegex (singleBlock internal p) content).
    set (c2 := replace V2.apiImportRegex (singleBlock api p) c1).
    split.
    + intros Hmod.
      destruct (replace_same_or_inserts V2.apiImportRegex (singleBlock api p) c1)
        as [E2 | [a [b E2]]]; fold c2 in E2.
      * rewrite E2 in *. rewrite text_eqb_refl, orb_false_r in Hmod.
        apply text_neqb_neq in Hmod.
        destruct (replace_same_or_inserts V2.internalImportRegex
                    (singleBlock internal p) content) as [E1 | [a [b E1]]];
          fold c1 in E1; [congruence|].
        rewrite E1. apply includes_within, singleBlock_marker.
      * rewrite E2. apply includes_within, singleBlock_marker.
    + intros Hmod. apply orb_false_iff in Hmod as [H1 H2].
      apply negb_false_iff, text_eqb_eq in H1, H2. congruence.
  - (* only internal *)
    destruct (test V2.internalImportRegex content);
      [|split; [discriminate | reflexivity]].
    rewrite finish_newContent, finish_modified. split; intros Hmod.
    + apply text_neqb_neq in Hmod.
      destruct (replace_same_or_inserts V2.internalImportRegex
                  (singleBlock internal p) content) as [E1 | [a [b E1]]];
        [congruence|].
      rewrite E1. apply includes_within, singleBlock_marker.
    + apply negb_false_iff, text_eqb_eq in Hmod. auto.
  - (* only api *)
    destruct (test V2.apiImportRegex content);
      [|split; [discriminate | reflexivity]].
    rewrite finish_newContent, finish_modified. split; intros Hmod.
    + apply text_neqb_neq in Hmod.
      destruct (replace_same_or_inserts V2.apiImportRegex
                  (singleBlock api p) content) as [E1 | [a [b E1]]];
        [congruence|].
      rewrite E1. apply includes_within, singleBlock_marker.
    + apply negb_false_iff, text_eqb_eq in Hmod. auto.
Qed.

Lemma V2_modified_has_marker depth content :
  modified (V2.processFile depth content) = true ->
  includes (newContent (V2.processFile depth content)) marker = true.
Proof.
  destruct (includes content marker) eqn:Hm.
  - rewrite (V2_marker_guard depth _ Hm). discriminate.
  - apply (V2_flag_sound depth _ Hm).
Qed.

Lemma V2_unmodified_same depth content :
  modified (V2.processFile depth content) = false ->
  newContent (V2.processFile depth content) = content.
Proof.
  destruct (includes content marker) eqn:Hm.
  - rewrite (V2_marker_guard depth _ Hm). reflexivity.
  - apply (V2_flag_sound depth _ Hm).
Qed.

Lemma V2_run_newContent depth content :
  V2.run depth content = newContent (V2.processFile depth content).
Proof.
  unfold V2.run, written.
  destruct (modified (V2.processFile depth content)) eqn:E; [reflexivity|].
  symmetry; apply V2_unmodified_same; exact E.
Qed.

(** ** What a successful match looks like *)

#[local] Hint Constructors Matches : core.

Lemma lastc_app prev m1 m2 : lastc prev (m1 ++ m2) = lastc (lastc prev m1) m2.
Proof. revert prev; induction m1; intros; simpl; auto. Qed.

Lemma read_lit_sound w prev rest st :
  read_lit w prev rest = Some st ->
  exists rest', rest = w ++ rest' /\ st = (lastc prev w, rest').
Proof.
  revert prev rest; induction w as [|x w IH]; intros prev rest; simpl.
  - intros [= <-]. exists rest; auto.
  - destruct rest as [|y rest]; [discriminate|].
    destruct (N.eqb x y) eqn:E; [|discriminate].
    apply N.eqb_eq in E; subst y. intros H.
    destruct (IH _ _ H) as [rest' [-> ->]]. exists rest'; auto.
Qed.

Lemma read_lit_complete w prev rest :
  read_lit w prev (w ++ rest) = Some (lastc prev w, rest).
Proof.
  revert prev; induction w as [|x w IH]; intros prev; simpl; [reflexivity|].
  rewrite N.eqb_refl. apply IH.
Qed.

Lemma star_cls_sound A p (k : state -> option A) prev rest x :
  star_cls p k prev rest = Some x ->
  exists m rest', rest = m ++ rest' /\ forallb p m = true /\
                  k (lastc prev m, rest') = Some x.
Proof.
  revert prev; induction rest as [|c rest IH]; intros prev; simpl.
  - intros H. exists [], []; auto.
  - destruct (p c) eqn:Hp.
    + destruct (star_cls p k (Some c) rest) eqn:E.
      * intros [= <-]. destruct (IH _ E) as [m [rest' [-> [Hm Hk]]]].
        exists (c :: m), rest'. simpl. rewrite Hp. auto.
      * intros H. exists [], (c :: rest); auto.
    + intros H. exists [], (c :: rest); auto.
Qed.

(** Soundness of the matcher: a success of [exec] is a match in the sense
    of [Matches], after which the continuation succeeded. *)
Lemma exec_sound r : forall A (k : state -> option A) prev rest x,
  exec r k (prev, rest) = Some x ->
  exists m rest', rest = m ++ rest' /\ Matches r prev m rest' /\
                  k (lastc prev m, rest') = Some x.
Proof.
  induction r as [| c | w | p | r1 IH1 r2 IH2 | r1 IH1 r2 IH2 | r1 IH1 | p
                 | | | | r1 IH1]; intros A k prev rest x; cbn [exec fst snd].
  - intros H. exists [], rest; auto.
  - destruct rest as [|y rest]; [discriminate|].
    destruct (N.eqb c y) eqn:E; [|discriminate]. apply N.eqb_eq in E; subst y.
    intros H. exists [c], rest; auto.
  - destruct (read_lit w prev rest) as [st'|] eqn:E; [|discriminate].
    destruct (read_lit_sound _ _ _ _ E) as [rest' [-> ->]].
    intros H. exists w, rest'; auto.
  - destruct rest as [|y rest]; [discriminate|].
    destruct (p y) eqn:E; [|discriminate].
    intros H. exists [y], rest; auto.
  - intros H. destruct (IH1 _ _ _ _ _ H) as [m1 [rest1 [-> [M1 H1]]]].
    destruct (IH2 _ _ _ _ _ H1) as [m2 [rest2 [-> [M2 H2]]]].
    exists (m1 ++ m2), rest2. rewrite app_assoc, lastc_app. auto.
  - destruct (exec r1 k (prev, rest)) eqn:E.
    + intros [= <-]. destruct (IH1 _ _ _ _ _ E) as [m [rest' [-> [M H]]]].
      exists m, rest'; auto.
    + intros H. destruct (IH2 _ _ _ _ _ H) as [m [rest' [-> [M H']]]].
      exists m, rest'; auto.
  - destruct (exec r1 k (prev, rest)) eqn:E.
    + intros [= <-]. destruct (IH1 _ _ _ _ _ E) as [m [rest' [-> [M H]]]].
      exists m, rest'; auto.
    + intros H. exists [], rest; auto.
  - intros H. destruct (star_cls_sound _ _ _ _ _ _ H) as [m [rest' [-> [Hm Hk]]]].
    exists m, rest'; auto.
  - destruct (at_bol prev) eqn:E; [|discriminate].
    intros H. exists [], rest; auto.
  - destruct (at_eol rest) eqn:E; [|discriminate].
    intros H. exists [], rest; auto.
  - destruct (at_wordb prev rest) eqn:E; [|discriminate].
    intros H. exists [], rest; auto.
  - destruct (exec r1 (@Some state) (prev, rest)) eqn:E; [|discriminate].
    destruct (IH1 _ _ _ _ _ E) as [m [rest' [-> [M _]]]].
    intros H. exists [], (m ++ rest'). split; [reflexivity|]. split; [|exact H].
    eapply M_Look; eauto.
Qed.

Lemma match_here_sound r prev rest st :
  match_here r prev rest = Some st ->
  exists m rest', rest = m ++ rest' /\ Matches r prev m rest' /\
                  st = (lastc prev m, rest').
Proof.
  intros H. destruct (exec_sound _ _ _ _ _ _ H) as [m [rest' [E [M [= <-]]]]].
  exists m, rest'; auto.
Qed.

(** A hit of the scan is a match somewhere in the text. *)
Lemma search_sound r prev rest :
  search r prev rest = true ->
  exists a m b, rest = a ++ m ++ b /\ Matches r (lastc prev a) m b.
Proof.
  revert prev; induction rest as [|c rest IH]; intros prev; cbn [search].
  - destruct (match_here r prev []) eqn:E; [|discriminate].
    destruct (match_here_sound _ _ _ _ E) as [m [rest' [E' [M _]]]].
    intros _. exists [], m, rest'; auto.
  - destruct (match_here r prev (c :: rest)) eqn:E.
    + destruct (match_here_sound _ _ _ _ E) as [m [rest' [E' [M _]]]].
      intros _. exists [], m, rest'; auto.
    + intros H. destruct (IH _ H) as [a [m [b [-> M]]]].
      exists (c :: a), m, b; auto.
Qed.

Lemma Matches_seqs_app l1 l2 : forall prev m rest,
  Matches (seqs (l1 ++ l2)) prev m rest ->
  exists m1 m2, m = m1 ++ m2 /\ Matches (seqs l1) prev m1 (m2 ++ rest) /\
                Matches (seqs l2) (lastc prev m1) m2 rest.
Proof.
  induction l1 as [|r l1 IH]; intros prev m rest; cbn [seqs app].
  - intros H. exists [], m. simpl. auto.
  - intros H. inversion H as [| | | | ? ? ? m1 m2' ? H1 H2 | | | | | | | | |];
      subst; clear H.
    destruct (IH _ _ _ H2) as [n1 [n2 [-> [Hn1 Hn2]]]].
    exists (m1 ++ n1), n2. rewrite app_assoc, lastc_app.
    split; [reflexivity|]. split; [|exact Hn2].
    rewrite <- app_assoc in H1. apply M_Seq; [exact H1 | exact Hn1].
Qed.

(** Inversion of a match against a pattern whose head is known. *)
Ltac inv_matches :=
  repeat match goal with
  | H : Matches (seqs _) _ _ _ |- _ => cbn [seqs app] in H
  | H : Matches (PlusCls _) _ _ _ |- _ => unfold PlusCls in H
  | H : Matches Eps _ _ _ |- _ => inversion H; clear H; subst
  | H : Matches (Chr _) _ _ _ |- _ => inversion H; clear H; subst
  | H : Matches (Lit _) _ _ _ |- _ => inversion H; clear H; subst
  | H : Matches (Cls _) _ _ _ |- _ => inversion H; clear H; subst
  | H : Matches (Seq _ _) _ _ _ |- _ => inversion H; clear H; subst
  | H : Matches (StarCls _) _ _ _ |- _ => inversion H; clear H; subst
  | H : Matches Bol _ _ _ |- _ => inversion H; clear H; subst
  | H : Matches Eol _ _ _ |- _ => inversion H; clear H; subst
  | H : Matches WordB _ _ _ |- _ => inversion H; clear H; subst
  | H : Matches (Look _) _ _ _ |- _ => inversion H; clear H; subst
  end.

(** ** Adequacy of the model of [replace] *)

(** The scan never runs out of fuel: any two amounts above the length of
    the input give the same text. *)
Lemma replace_loop_fuel r rep : forall fuel1 fuel2 prev rest,
  length rest < fuel1 -> length rest < fuel2 ->
  replace_loop r rep fuel1 prev rest = replace_loop r rep fuel2 prev rest.
Proof.
  induction fuel1 as [|fuel1 IH]; intros [|fuel2] prev rest H1 H2; try lia.
  cbn [replace_loop].
  assert (Hstep : step_over (replace_loop r rep fuel1) rest =
                  step_over (replace_loop r rep fuel2) rest).
  { destruct rest as [|c rest]; simpl in *; [reflexivity|].
    f_equal. apply IH; lia. }
  destruct (match_here r prev rest) as [[prev' rest']|] eqn:E; [|exact Hstep].
  destruct (Nat.ltb (length rest') (length rest)) eqn:Hlt.
  - apply Nat.ltb_lt in Hlt. f_equal. apply IH; lia.
  - f_equal. exact Hstep.
Qed.

(** The templates hold no dollar sign, so GetSubstitution returns them as
    they are: the replacement text is inserted literally. *)
Lemma no_dollar_app a b : no_dollar (a ++ b) = no_dollar a && no_dollar b.
Proof. apply forallb_app. Qed.

Lemma relPath_no_dollar depth : no_dollar (relPath depth) = true.
Proof.
  unfold relPath. rewrite no_dollar_app.
  induction depth as [|depth IH]; [reflexivity|].
  cbn [repeat concat]. rewrite no_dollar_app. exact IH.
Qed.

Lemma importPath_no_dollar depth : no_dollar (importPath depth) = true.
Proof.
  unfold importPath. destruct (starts_with _ _).
  - apply relPath_no_dollar.
  - rewrite no_dollar_app, relPath_no_dollar. reflexivity.
Qed.

(** No replacement template holds a dollar sign, at any depth: as the
    second argument of [replace] each template stands for itself. *)
Lemma templates_no_dollar depth :
  forallb (fun rule => no_dollar (snd rule)) (rules depth) = true.
Proof.
  pose proof (importPath_no_dollar depth) as H.
  unfold rules, combinedBlock, singleBlock, requireLine. cbn [forallb snd].
  rewrite !no_dollar_app, !H. reflexivity.
Qed.

(** ** Completeness of the matcher *)

Lemma star_cls_complete A p (k : state -> option A) m : forall prev rest,
  forallb p m = true -> k (lastc prev m, rest) <> None ->
  star_cls p k prev (m ++ rest) <> None.
Proof.
  induction m as [|c m IH]; intros prev rest Hm Hk.
  - simpl in *. destruct rest as [|c rest]; simpl; [exact Hk|].
    destruct (p c); [|exact Hk].
    destruct (star_cls p k (Some c) rest); [discriminate | exact Hk].
  - simpl in Hm. apply andb_true_iff in Hm as [Hc Hm]. simpl. rewrite Hc.
    specialize (IH (Some c) rest Hm Hk).
    destruct (star_cls p k (Some c) (m ++ rest)); [discriminate | contradiction].
Qed.

(** Whatever [Matches] allows and the continuation accepts, the matcher
    finds some way to succeed. *)
Lemma exec_complete r prev m rest :
  Matches r prev m rest ->
  forall A (k : state -> option A),
    k (lastc prev m, rest) <> None -> exec r k (prev, m ++ rest) <> None.
Proof.
  induction 1 as [prev rest | c prev rest | w prev rest | p c prev rest Hp
                 | r1 r2 prev m1 m2 rest _ IH1 _ IH2
                 | r1 r2 prev m rest _ IH | r1 r2 prev m rest _ IH
                 | r prev m rest _ IH | r prev rest
                 | p prev m rest Hm | prev rest Hb | prev rest He
                 | prev rest Hw | r prev m rest' rest _ IH E];
    intros A k Hk; cbn [exec fst snd app lastc] in *.
  - exact Hk.
  - rewrite N.eqb_refl. exact Hk.
  - rewrite read_lit_complete. exact Hk.
  - rewrite Hp. exact Hk.
  - rewrite <- app_assoc. apply IH1. apply IH2. rewrite <- lastc_app. exact Hk.
  - specialize (IH A k Hk). destruct (exec r1 k (prev, m ++ rest));
      [discriminate | contradiction].
  - destruct (exec r1 k (prev, m ++ rest)); [discriminate | apply IH; exact Hk].
  - specialize (IH A k Hk). destruct (exec r k (prev, m ++ rest));
      [discriminate | contradiction].
  - destruct (exec r k _); [discriminate | exact Hk].
  - apply star_cls_complete; assumption.
  - rewrite Hb. exact Hk.
  - rewrite He. exact Hk.
  - rewrite Hw. exact Hk.
  - subst rest. assert (H : exec r (@Some state) (prev, m ++ rest') <> None)
      by (apply IH; discriminate).
    destruct (exec r (@Some state) (prev, m ++ rest')); [exact Hk | contradiction].
Qed.

Lemma search_complete r a m b : forall prev,
  Matches r (lastc prev a) m b -> search r prev (a ++ m ++ b) = true.
Proof.
  induction a as [|c a IH]; intros prev M.
  - simpl in M. assert (H : match_here r prev (m ++ b) <> None)
      by (apply exec_complete; [exact M | discriminate]).
    cbn [app]. destruct (m ++ b) as [|x t]; cbn [search];
      destruct (match_here r prev _); try reflexivity; contradiction.
  - cbn [app search]. destruct (match_here r prev _); [reflexivity|].
    apply IH. exact M.
Qed.

(** [test] holds exactly when the pattern matches somewhere in the text. *)
Lemma test_iff_Matches r s :
  test r s = true <->
  exists a m b, s = a ++ m ++ b /\ Matches r (lastc None a) m b.
Proof.
  split; [apply search_sound|].
  intros [a [m [b [-> M]]]]. apply search_complete; exact M.
Qed.

(** ** Character classes *)

Lemma isSpace_cases c :
  isSpace c = true ->
  (9 <= c <= 13 \/ c = 32 \/ c = 160 \/ c = 5760 \/ 8192 <= c <= 8202 \/
   c = 8232 \/ c = 8233 \/ c = 8239 \/ c = 8287 \/ c = 12288 \/ c = 65279)%N.
Proof.
  unfold isSpace, in_range.
  rewrite !orb_true_iff, !andb_true_iff, !N.eqb_eq, !N.leb_le. tauto.
Qed.

Lemma isWordChar_cases c :
  isWordChar c = true ->
  (97 <= c <= 122 \/ 65 <= c <= 90 \/ 48 <= c <= 57 \/ c = 95)%N.
Proof.
  unfold isWordChar, in_range.
  rewrite !orb_true_iff, !andb_true_iff, !N.eqb_eq, !N.leb_le. tauto.
Qed.

Lemma isLineTerminator_cases c :
  isLineTerminator c = true -> (c = 10 \/ c = 13 \/ c = 8232 \/ c = 8233)%N.
Proof.
  unfold isLineTerminator. rewrite !orb_true_iff, !N.eqb_eq. tauto.
Qed.

Lemma space_not_word c : isSpace c = true -> isWordChar c = false.
Proof.
  intros Hs. destruct (isWordChar c) eqn:Hw; [exfalso|reflexivity].
  apply isSpace_cases in Hs. apply isWordChar_cases in Hw. lia.
Qed.

Lemma space_notRBrace c : isSpace c = true -> notRBrace c = true.
Proof.
  intros Hs. unfold notRBrace, RBRACE. apply negb_true_iff, N.eqb_neq.
  apply isSpace_cases in Hs. lia.
Qed.

Lemma commaOrRBrace_not_word c : isCommaOrRBrace c = true -> isWordChar c = false.
Proof.
  unfold isCommaOrRBrace, COMMA, RBRACE.
  rewrite orb_true_iff, !N.eqb_eq. intros [-> | ->]; reflexivity.
Qed.

Lemma spaces_notRBrace m : forallb isSpace m = true -> forallb notRBrace m = true.
Proof.
  induction m as [|c m IH]; simpl; [reflexivity|].
  rewrite !andb_true_iff. intros [Hc Hm]. split; [apply space_notRBrace|]; auto.
Qed.

Lemma spaces_keep_nonword prev m :
  forallb isSpace m = true -> word_before prev = false ->
  word_before (lastc prev m) = false.
Proof.
  revert prev; induction m as [|c m IH]; intros prev; simpl; [auto|].
  rewrite andb_true_iff. intros [Hc Hm] _. apply IH; [exact Hm|].
  simpl. apply space_not_word; exact Hc.
Qed.

Lemma spaces_then_nonword m c t :
  forallb isSpace m = true -> isWordChar c = false ->
  word_after (m ++ c :: t) = false.
Proof.
  destruct m as [|d m]; simpl; [auto|].
  rewrite andb_true_iff. intros [Hd _] _. apply space_not_word; exact Hd.
Qed.

(** ** Names in brace lists *)

Lemma word_in_body_skip w x : forall prev y,
  forallb notRBrace x = true ->
  word_in_body w (lastc prev x) y = true ->
  word_in_body w prev (x ++ y) = true.
Proof.
  induction x as [|c x IH]; intros prev y; simpl; [auto|].
  rewrite andb_true_iff. intros [Hc Hx] H. rewrite Hc. simpl.
  rewrite (IH _ _ Hx H). apply orb_true_r.
Qed.

Lemma word_in_braces_skip w a b :
  word_in_braces w b = true -> word_in_braces w (a ++ b) = true.
Proof.
  intros H. induction a as [|c a IH]; simpl; [exact H|].
  rewrite IH. apply orb_true_r.
Qed.

Lemma word_in_braces_here w b :
  word_in_body w (Some LBRACE) b = true ->
  word_in_braces w (LBRACE :: b) = true.
Proof. intros H. simpl. rewrite H. reflexivity. Qed.

Lemma skipn_length_app (w t : text) : skipn (length w) (w ++ t) = t.
Proof. induction w; simpl; auto. Qed.

Lemma internal_wordy : wordy internal.
Proof. split; [reflexivity | intros prev; reflexivity]. Qed.

Lemma api_wordy : wordy api.
Proof. split; [reflexivity | intros prev; reflexivity]. Qed.

Lemma word_after_app name t : word_after name = true -> word_after (name ++ t) = true.
Proof. destruct name; simpl; [discriminate | auto]. Qed.

Lemma wordy_notRBrace_head name t :
  word_after name = true -> exists c u, name ++ t = c :: u /\ notRBrace c = true.
Proof.
  destruct name as [|c name]; simpl; [discriminate|]. intros H.
  exists c, (name ++ t). split; [reflexivity|].
  unfold notRBrace, RBRACE. apply negb_true_iff, N.eqb_neq.
  apply isWordChar_cases in H. lia.
Qed.

(** The whole word [name], found after a run without closing brace. *)
Lemma word_in_body_found name prev x t :
  wordy name ->
  forallb notRBrace x = true ->
  word_before (lastc prev x) = false ->
  word_after t = false ->
  word_in_body name prev (x ++ name ++ t) = true.
Proof.
  intros [Hhead Hlast] Hx Hb Ha. apply word_in_body_skip; [exact Hx|].
  destruct (wordy_notRBrace_head name t Hhead) as [c [u [E Hc]]].
  rewrite E. cbn [word_in_body]. rewrite Hc, <- E. cbn [andb].
  unfold word_here. rewrite Hb, starts_with_app, skipn_length_app, Ha.
  reflexivity.
Qed.

Lemma at_wordb_before prev t :
  at_wordb prev t = true -> word_after t = true -> word_before prev = false.
Proof. unfold at_wordb. destruct (word_before prev), (word_after t); auto. Qed.

Lemma at_wordb_after prev t :
  at_wordb prev t = true -> word_before prev = true -> word_after t = false.
Proof. unfold at_wordb. destruct (word_before prev), (word_after t); auto. Qed.

(** A match of [[^}]*\bNAME\b] right after an opening brace shows [name] as
    a whole word of that brace list. *)
Lemma wordInBraces_found name m rest :
  wordy name ->
  Matches (V2.wordInBraces name) (Some LBRACE) m rest ->
  word_in_body name (Some LBRACE) (m ++ rest) = true.
Proof.
  intros Hn H. unfold V2.wordInBraces in H. inv_matches.
  cbn [app lastc] in *. rewrite ?app_nil_r, <- ?app_assoc in *.
  apply word_in_body_found; auto.
  - eapply at_wordb_before; [eassumption|]. apply word_after_app, Hn.
  - eapply at_wordb_after; [eassumption|]. apply Hn.
Qed.

(** The same for the brace list of the detection pattern,
    [\{\s*NAME\s*[,}]]: the name is the first of the list. *)
Lemma detectRegex_found name prev m rest :
  wordy name ->
  Matches (detectRegex name) prev m rest ->
  word_in_braces name (m ++ rest) = true.
Proof.
  intros Hn H. unfold detectRegex in H.
  apply (Matches_seqs_app
           [Bol; Lit (str "import"); PlusCls isSpace; StarCls isDot]) in H.
  destruct H as [m1 [m2 [-> [_ H]]]].
  rewrite <- app_assoc. apply word_in_braces_skip.
  apply (Matches_seqs_app
           [Chr LBRACE; StarCls isSpace; Lit name; StarCls isSpace;
            Cls isCommaOrRBrace]) in H.
  destruct H as [m3 [m4 [-> [H _]]]].
  inv_matches.
  cbn [app]. rewrite ?app_nil_r, <- ?app_assoc. cbn [app].
  apply word_in_braces_here.
  apply word_in_body_found; auto using spaces_notRBrace.
  - apply spaces_keep_nonword; auto.
  - apply spaces_then_nonword; auto using commaOrRBrace_not_word.
Qed.

(** The brace list of the replacement patterns of version two. *)
Lemma nameImportRegex_found name prev m rest :
  wordy name ->
  Matches (V2.nameImportRegex name) prev m rest ->
  word_in_braces name (m ++ rest) = true.
Proof.
  intros Hn H. unfold V2.nameImportRegex, V2.importRegex in H.
  apply (Matches_seqs_app
           [Bol; Lit (str "import"); PlusCls isSpace;
            Opt (Seq (Lit (str "type")) (PlusCls isSpace))]) in H.
  destruct H as [m1 [m2 [-> [_ H]]]].
  rewrite <- app_assoc. apply word_in_braces_skip.
  apply (Matches_seqs_app
           [Chr LBRACE; StarCls notRBrace; WordB; Lit name; WordB]) in H.
  destruct H as [m3 [m4 [-> [H _]]]].
  cbn [seqs] in H.
  inversion H as [| | | | ? ? ? n1 n2 ? H1 H2 | | | | | | | | |]; subst; clear H.
  inversion H1; subst; clear H1.
  rewrite <- !app_assoc. cbn [app lastc] in *.
  apply word_in_braces_here.
  apply (wordInBraces_found _ _ _ Hn) in H2. exact H2.
Qed.

Lemma combinedImportRegex_found prev m rest :
  Matches V2.combinedImportRegex prev m rest ->
  word_in_braces internal (m ++ rest) = true /\
  word_in_braces api (m ++ rest) = true.
Proof.
  intros H. unfold V2.combinedImportRegex, V2.importRegex in H.
  apply (Matches_seqs_app
           [Bol; Lit (str "import"); PlusCls isSpace;
            Opt (Seq (Lit (str "type")) (PlusCls isSpace))]) in H.
  destruct H as [m1 [m2 [-> [_ H]]]].
  rewrite <- app_assoc.
  apply (Matches_seqs_app
           [Chr LBRACE; Look (V2.wordInBraces internal);
            Look (V2.wordInBraces api)]) in H.
  destruct H as [m3 [m4 [-> [H _]]]].
  cbn [seqs] in H.
  inversion H as [| | | | ? ? ? n1 n2 ? H1 H2 | | | | | | | | |]; subst; clear H.
  inversion H1; subst; clear H1.
  inversion H2 as [| | | | ? ? ? n3 n4 ? H3 H4 | | | | | | | | |]; subst; clear H2.
  inversion H3 as [| | | | | | | | | | | | | ? ? x1 y1 ? Hi Ei]; subst; clear H3.
  inversion H4 as [| | | | ? ? ? n5 n6 ? H5 H6 | | | | | | | | |]; subst; clear H4.
  inversion H5 as [| | | | | | | | | | | | | ? ? x2 y2 ? Ha Ea]; subst; clear H5.
  inversion H6; subst; clear H6.
  cbn [app lastc] in *.
  apply (wordInBraces_found _ _ _ internal_wordy) in Hi.
  apply (wordInBraces_found _ _ _ api_wordy) in Ha.
  rewrite <- Ea in Ha. rewrite <- Ei in Hi.
  split; apply word_in_braces_skip; cbn [app]; apply word_in_braces_here;
    assumption.
Qed.

(** Where no brace list holds the name as a whole word, no pattern of
    version two is found. *)
Lemma detect_needs_word name s :
  wordy name -> word_in_braces name s = false ->
  test (detectRegex name) s = false.
Proof.
  intros Hn Hw. destruct (test (detectRegex name) s) eqn:E; [|reflexivity].
  apply search_sound in E. destruct E as [a [m [b [-> M]]]].
  apply (detectRegex_found _ _ _ _ Hn) in M.
  rewrite (word_in_braces_skip _ a _ M) in Hw. discriminate.
Qed.

Lemma nameImport_needs_word name s :
  wordy name -> word_in_braces name s = false ->
  test (V2.nameImportRegex name) s = false.
Proof.
  intros Hn Hw. destruct (test (V2.nameImportRegex name) s) eqn:E; [|reflexivity].
  apply search_sound in E. destruct E as [a [m [b [-> M]]]].
  apply (nameImportRegex_found _ _ _ _ Hn) in M.
  rewrite (word_in_braces_skip _ a _ M) in Hw. discriminate.
Qed.

Lemma combined_needs_words s :
  word_in_braces internal s = false \/ word_in_braces api s = false ->
  test V2.combinedImportRegex s = false.
Proof.
  intros Hw. destruct (test V2.combinedImportRegex s) eqn:E; [|reflexivity].
  apply search_sound in E. destruct E as [a [m [b [-> M]]]].
  apply combinedImportRegex_found in M. destruct M as [Mi Ma].
  rewrite (word_in_braces_skip _ a _ Mi), (word_in_braces_skip _ a _ Ma) in Hw.
  destruct Hw; discriminate.
Qed.

(** ** Frame: what a replacement pass leaves alone *)

Lemma spliced_refl rules s : forall prev, spliced rules prev s s.
Proof. induction s; intros; constructor; auto. Qed.

Lemma spliced_mono rules rules' prev s out :
  incl rules rules' -> spliced rules prev s out -> spliced rules' prev s out.
Proof.
  intros Hi H. induction H; [constructor | constructor; auto |].
  eapply sp_replace; eauto.
Qed.

Lemma replace_loop_spliced r rep :
  forall fuel prev rest,
    spliced [(r, rep)] prev rest (replace_loop r rep fuel prev rest).
Proof.
  induction fuel as [|fuel IH]; intros prev rest.
  - apply spliced_refl.
  - cbn [replace_loop].
    assert (Hstep : spliced [(r, rep)] prev rest
                      (step_over (replace_loop r rep fuel) rest)).
    { destruct rest as [|c rest]; simpl; constructor; apply IH. }
    destruct (match_here r prev rest) as [[prev' rest']|] eqn:E; [|exact Hstep].
    destruct (match_here_sound _ _ _ _ E) as [m [rest'' [-> [M [= -> ->]]]]].
    destruct (Nat.ltb (length rest'') (length (m ++ rest''))) eqn:Hlt.
    + eapply sp_replace; simpl; eauto.
    + apply Nat.ltb_ge in Hlt. rewrite length_app in Hlt.
      destruct m as [|c m]; [|simpl in Hlt; lia].
      simpl in *. apply (sp_replace _ prev r rep [] rest''); simpl; auto.
Qed.

Lemma replace_spliced r rep s : spliced [(r, rep)] None s (replace r rep s).
Proof. apply replace_loop_spliced. Qed.

Lemma Matches_seqs_last l r : forall prev m rest,
  Matches (seqs (l ++ [r])) prev m rest ->
  exists m1 m2, m = m1 ++ m2 /\ Matches r (lastc prev m1) m2 rest.
Proof.
  intros prev m rest H. apply Matches_seqs_app in H.
  destruct H as [m1 [m2 [-> [_ H]]]]. cbn [seqs] in H.
  inversion H as [| | | | ? ? ? n1 n2 ? H1 H2 | | | | | | | | |]; subst; clear H.
  inversion H2; subst; clear H2. rewrite app_nil_r.
  exists m1, n1; auto.
Qed.

Lemma V2_importRegex_anchored braces : line_anchored (V2.importRegex braces).
Proof.
  intros prev m rest H. unfold V2.importRegex in H.
  assert (Hend : at_eol rest = true).
  { replace ([Bol; Lit (str "import"); PlusCls isSpace;
              Opt (Seq (Lit (str "type")) (PlusCls isSpace)); Chr LBRACE]
             ++ braces ++
             [Chr RBRACE; PlusCls isSpace; Lit (str "from"); PlusCls isSpace]
             ++ specifier ++ [Opt (Chr SEMI); StarCls isDot; Eol])
      with (([Bol; Lit (str "import"); PlusCls isSpace;
              Opt (Seq (Lit (str "type")) (PlusCls isSpace)); Chr LBRACE]
             ++ braces ++
             [Chr RBRACE; PlusCls isSpace; Lit (str "from"); PlusCls isSpace]
             ++ specifier ++ [Opt (Chr SEMI); StarCls isDot]) ++ [Eol]) in H
      by (rewrite <- !app_assoc; reflexivity).
    apply Matches_seqs_last in H. destruct H as [m1 [m2 [_ H]]].
    inversion H; subst; assumption. }
  apply (Matches_seqs_app [Bol; Lit (str "import")]) in H.
  destruct H as [m1 [m2 [-> [H _]]]]. inv_matches.
  cbn [app]. rewrite app_nil_r. repeat split; auto.
Qed.

(** ** The claims about version two *)

(** C1. Idempotence: running the loop body on its own output changes
    nothing.  When the first run sets [modified], its output holds the
    marker and the second run stops at the marker guard; and any text that
    holds the marker is returned as it is by that guard. *)
Theorem C1_rewrite_idempotent (depth : nat) (content : text) :
  V2.run depth (V2.run depth content) = V2.run depth content /\
  (modified (V2.processFile depth content) = true ->
   includes (newContent (V2.processFile depth content)) marker = true /\
   V2.processFile depth (newContent (V2.processFile depth content)) =
     mkResult (newContent (V2.processFile depth content)) false
       SkippedAlreadyPatched) /\
  (includes content marker = true ->
   V2.processFile depth content = mkResult content false SkippedAlreadyPatched).
Proof.
  assert (Hmod : modified (V2.processFile depth content) = true ->
     includes (newContent (V2.processFile depth content)) marker = true /\
     V2.processFile depth (newContent (V2.processFile depth content)) =
       mkResult (newContent (V2.processFile depth content)) false
         SkippedAlreadyPatched).
  { intros H. pose proof (V2_modified_has_marker _ _ H) as Hi.
    split; [exact Hi | apply V2_marker_guard; exact Hi]. }
  split; [|split; [exact Hmod | apply V2_marker_guard]].
  unfold V2.run at 2. unfold written.
  destruct (modified (V2.processFile depth content)) eqn:E.
  - destruct (Hmod eq_refl) as [_ H2]. unfold V2.run, written.
    rewrite H2, E. reflexivity.
  - unfold V2.run, written. rewrite E. reflexivity.
Qed.

(** C5. Marker invariant: the text left by one run holds the marker exactly
    when this run fixed the file or the input already held the marker.  A
    text that holds the marker is left untouched, and both templates hold
    the marker, whatever the path. *)
Theorem C5_marker_invariant (depth : nat) (content : text) :
  (includes (V2.run depth content) marker = true <->
   (modified (V2.processFile depth content) = true \/
    includes content marker = true)) /\
  (includes content marker = true -> V2.run depth content = content) /\
  (forall name p, includes (singleBlock name p) marker = true) /\
  (forall p, includes (combinedBlock p) marker = true).
Proof.
  split; [|split; [|split; [apply singleBlock_marker | apply combinedBlock_marker]]].
  - rewrite V2_run_newContent. destruct (includes content marker) eqn:Hm.
    + rewrite (V2_marker_guard depth _ Hm). simpl. rewrite Hm. tauto.
    + destruct (V2_flag_sound depth content Hm) as [H1 H2]. cbv zeta in H1, H2.
      destruct (modified (V2.processFile depth content)) eqn:E.
      * rewrite (H1 eq_refl). tauto.
      * rewrite (H2 eq_refl), Hm.
        split; [discriminate | intros [H | H]; discriminate].
  - intros Hm. unfold V2.run. rewrite (V2_marker_guard depth _ Hm). reflexivity.
Qed.

(** C6. No-op safety: a text without the marker on which neither detection
    holds is returned as it is, unmodified, as Skipped-NoMatch. *)
Theorem C6_noop_safety (depth : nat) (content : text) :
  includes content marker = false ->
  hasInternalImport content = false ->
  hasApiImport content = false ->
  V2.processFile depth content = mkResult content false SkippedNoMatch /\
  V2.run depth content = content.
Proof.
  intros Hm Hi Ha. pose proof (V2_detection_gate depth _ Hm Hi Ha) as E.
  split; [exact E|]. unfold V2.run. rewrite E. reflexivity.
Qed.

Lemma C6_noop_safety_witness :
  (includes plainFixture marker = false /\
   hasInternalImport plainFixture = false /\
   hasApiImport plainFixture = false) /\
  V2.processFile 2 plainFixture = mkResult plainFixture false SkippedNoMatch /\
  V2.run 2 plainFixture = plainFixture.
Proof.
  split; [repeat split; vm_compute; reflexivity|].
  apply (C6_noop_safety 2 plainFixture); vm_compute; reflexivity.
Defined.

(** C7. Soundness of the flag: on a text without the marker, [modified] is
    set exactly when the new text differs from the input; in particular it
    stays clear when none of the replacement patterns is found, whatever the
    detections say. *)
Theorem C7_modified_flag_sound (depth : nat) (content : text) :
  includes content marker = false ->
  (modified (V2.processFile depth content) = true <->
   newContent (V2.processFile depth content) <> content) /\
  (test V2.combinedImportRegex content = false ->
   test V2.internalImportRegex content = false ->
   test V2.apiImportRegex content = false ->
   modified (V2.processFile depth content) = false).
Proof.
  intros Hm. destruct (V2_flag_sound depth content Hm) as [H1 H2].
  cbv zeta in H1, H2.
  assert (Hiff : modified (V2.processFile depth content) = true <->
                 newContent (V2.processFile depth content) <> content).
  { split.
    - intros H. apply not_eq_sym.
      apply (includes_differs _ _ marker Hm (H1 H)).
    - intros H. destruct (modified (V2.processFile depth content));
        [reflexivity | exfalso; apply H, H2; reflexivity]. }
  split; [exact Hiff|]. intros Hc Hi Ha.
  apply not_true_iff_false. intros H. apply Hiff in H. apply H. clear H Hiff H1 H2.
  unfold V2.processFile. rewrite Hm. unfold V2.sameLineCombinedRegex. rewrite Hc, Hi, Ha.
  cbv zeta. rewrite !(test_false_replace _ _ _ Hi), !(test_false_replace _ _ _ Ha).
  destruct (hasInternalImport content), (hasApiImport content); cbn [negb andb];
    rewrite ?finish_newContent; reflexivity.
Qed.

Lemma C7_modified_flag_sound_witness :
  (includes defaultAndNamedImport marker = false /\
   hasInternalImport defaultAndNamedImport = true) /\
  modified (V2.processFile 1 defaultAndNamedImport) = false /\
  (modified (V2.processFile 1 internalFixture) = true <->
   newContent (V2.processFile 1 internalFixture) <> internalFixture).
Proof.
  split; [split; vm_compute; reflexivity|]. split.
  - apply (C7_modified_flag_sound 1 defaultAndNamedImport);
      vm_compute; reflexivity.
  - apply (C7_modified_flag_sound 1 internalFixture). vm_compute; reflexivity.
Defined.







(** The separate-line fixture after an edit that leaves only the
    [internal] line matching its replacement pattern: that line alone is
    replaced, and the file counts as modified. *)
Example separate_lines_one_match :
  V2.processFile 1 (internalFixture ++ [LF] ++
                    str "import helpers, { api } from " ++ [DQ] ++
                    str "../_generated/api" ++ [DQ] ++ str ";") =
  mkResult (singleBlock internal (importPath 1) ++ [LF] ++
            str "import helpers, { api } from " ++ [DQ] ++
            str "../_generated/api" ++ [DQ] ++ str ";")
           true Fixed.
Proof. vm_compute. reflexivity. Qed.

(** Identifiers in brace lists: the first name of a brace list, as the
    detection pattern reads it, is a whole identifier of that list. *)
Lemma space_not_ident c : isSpace c = true -> isIdentChar c = false.
Proof.
  intros Hs. unfold isIdentChar. rewrite (space_not_word c Hs), Hs.
  cbn [negb orb]. rewrite andb_false_r, orb_false_r.
  apply N.eqb_neq. unfold DOLLAR. apply isSpace_cases in Hs. lia.
Qed.

Lemma commaOrRBrace_not_ident c :
  isCommaOrRBrace c = true -> isIdentChar c = false.
Proof.
  unfold isCommaOrRBrace, COMMA, RBRACE.
  rewrite orb_true_iff, !N.eqb_eq. intros [-> | ->]; reflexivity.
Qed.

Lemma spaces_keep_nonident prev m :
  forallb isSpace m = true -> ident_before prev = false ->
  ident_before (lastc prev m) = false.
Proof.
  revert prev; induction m as [|c m IH]; intros prev; simpl; [auto|].
  rewrite andb_true_iff. intros [Hc Hm] _. apply IH; [exact Hm|].
  simpl. apply space_not_ident; exact Hc.
Qed.

Lemma spaces_then_nonident m c t :
  forallb isSpace m = true -> isIdentChar c = false ->
  ident_after (m ++ c :: t) = false.
Proof.
  destruct m as [|d m]; simpl; [auto|].
  rewrite andb_true_iff. intros [Hd _] _. apply space_not_ident; exact Hd.
Qed.

Lemma ident_in_body_skip w x : forall prev y,
  forallb notRBrace x = true ->
  ident_in_body w (lastc prev x) y = true ->
  ident_in_body w prev (x ++ y) = true.
Proof.
  induction x as [|c x IH]; intros prev y; simpl; [auto|].
  rewrite andb_true_iff. intros [Hc Hx] H. rewrite Hc. simpl.
  rewrite (IH _ _ Hx H). apply orb_true_r.
Qed.

Lemma ident_in_braces_skip w a b :
  ident_in_braces w b = true -> ident_in_braces w (a ++ b) = true.
Proof.
  intros H. induction a as [|c a IH]; simpl; [exact H|].
  rewrite IH. apply orb_true_r.
Qed.

Lemma ident_in_body_found name prev x t :
  wordy name ->
  forallb notRBrace x = true ->
  ident_before (lastc prev x) = false ->
  ident_after t = false ->
  ident_in_body name prev (x ++ name ++ t) = true.
Proof.
  intros [Hhead Hlast] Hx Hb Ha. apply ident_in_body_skip; [exact Hx|].
  destruct (wordy_notRBrace_head name t Hhead) as [c [u [E Hc]]].
  rewrite E. cbn [ident_in_body]. rewrite Hc, <- E. cbn [andb].
  unfold ident_here. rewrite Hb, starts_with_app, skipn_length_app, Ha.
  reflexivity.
Qed.

Lemma detectRegex_ident name prev m rest :
  wordy name ->
  Matches (detectRegex name) prev m rest ->
  ident_in_braces name (m ++ rest) = true.
Proof.
  intros Hn H. unfold detectRegex in H.
  apply (Matches_seqs_app
           [Bol; Lit (str "import"); PlusCls isSpace; StarCls isDot]) in H.
  destruct H as [m1 [m2 [-> [_ H]]]].
  rewrite <- app_assoc. apply ident_in_braces_skip.
  apply (Matches_seqs_app
           [Chr LBRACE; StarCls isSpace; Lit name; StarCls isSpace;
            Cls isCommaOrRBrace]) in H.
  destruct H as [m3 [m4 [-> [H _]]]].
  inv_matches.
  cbn [app]. rewrite ?app_nil_r, <- ?app_assoc. cbn [app].
  cbn [ident_in_braces]. rewrite N.eqb_refl. cbn [andb].
  apply orb_true_iff. left.
  apply ident_in_body_found; auto using spaces_notRBrace.
  - apply spaces_keep_nonident; auto.
  - apply spaces_then_nonident; auto using commaOrRBrace_not_ident.
Qed.

Lemma detect_needs_ident name s :
  wordy name -> ident_in_braces name s = false ->
  test (detectRegex name) s = false.
Proof.
  intros Hn Hw. destruct (test (detectRegex name) s) eqn:E; [|reflexivity].
  apply search_sound in E. destruct E as [a [m [b [-> M]]]].
  apply (detectRegex_ident _ _ _ _ Hn) in M.
  rewrite (ident_in_braces_skip _ a _ M) in Hw. discriminate.
Qed.

(** C8, as stated, fails on [import { internal$ } from "../_generated/api";]:
    the only identifier of the brace list merely contains [internal], yet
    the replacement pattern for [internal] matches the line, because the
    dollar sign is no word character for [\b].  The detection does not
    match, so the file is still returned as it was. *)
Lemma C8_dollar_name_matched :
  ident_in_braces internal dollarFixture = false /\
  ident_in_braces api dollarFixture = false /\
  includes dollarFixture (str "{ internal$ }") = true /\
  test V2.internalImportRegex dollarFixture = true /\
  hasInternalImport dollarFixture = false /\
  V2.processFile 1 dollarFixture = mkResult dollarFixture false SkippedNoMatch.
Proof. repeat split; vm_compute; reflexivity. Qed.

(** C8, amended.  When no brace list of the text lists the identifier
    [internal] or the identifier [api] itself (identifiers that merely
    contain one of them, as [internalFoo] or [internal$], may be listed),
    neither detection matches and the text comes back as it is,
    unmodified.  The replacement patterns do not match either as far as the
    word boundary of the patterns goes: where no brace list holds the name
    between two boundaries (no ASCII letter, digit or underscore next to
    it), the pattern for that name and the same-line pattern are not
    found. *)
Theorem C8_unrelated_names_untouched (depth : nat) (content : text) :
  ident_in_braces internal content = false ->
  ident_in_braces api content = false ->
  (hasInternalImport content = false /\ hasApiImport content = false) /\
  V2.processFile depth content =
    mkResult content false
      (if includes content marker then SkippedAlreadyPatched
       else SkippedNoMatch) /\
  newContent (V2.processFile depth content) = content /\
  modified (V2.processFile depth content) = false /\
  (word_in_braces internal content = false ->
   test V2.internalImportRegex content = false) /\
  (word_in_braces api content = false ->
   test V2.apiImportRegex content = false) /\
  (word_in_braces internal content = false \/
   word_in_braces api content = false ->
   test V2.combinedImportRegex content = false).
Proof.
  intros Hi Ha.
  assert (Di : hasInternalImport content = false)
    by (apply detect_needs_ident; [apply internal_wordy | exact Hi]).
  assert (Da : hasApiImport content = false)
    by (apply detect_needs_ident; [apply api_wordy | exact Ha]).
  assert (E : V2.processFile depth content =
              mkResult content false
                (if includes content marker then SkippedAlreadyPatched
                 else SkippedNoMatch)).
  { unfold V2.processFile. rewrite Di, Da.
    destruct (includes content marker); reflexivity. }
  split; [split; assumption|]. split; [exact E|]. rewrite E.
  split; [reflexivity|]. split; [reflexivity|].
  split; [|split].
  - apply nameImport_needs_word, internal_wordy.
  - apply nameImport_needs_word, api_wordy.
  - apply combined_needs_words.
Qed.

Lemma C8_unrelated_names_untouched_witness :
  (ident_in_braces internal unrelatedFixture = false /\
   ident_in_braces api unrelatedFixture = false /\
   word_in_braces internal unrelatedFixture = false) /\
  hasInternalImport unrelatedFixture = false /\
  test V2.internalImportRegex unrelatedFixture = false /\
  newContent (V2.processFile 1 unrelatedFixture) = unrelatedFixture /\
  modified (V2.processFile 1 unrelatedFixture) = false.
Proof.
  split; [repeat split; vm_compute; reflexivity|].
  destruct (C8_unrelated_names_untouched 1 unrelatedFixture)
    as [[Di _] [_ [En [Em [Ti _]]]]]; [vm_compute; reflexivity ..|].
  split; [exact Di|]. split; [apply Ti; vm_compute; reflexivity|].
  split; assumption.
Defined.

(** ** Where the detection falls short of the replacement patterns *)

(** C2. The detection pattern [\{\s*internal\s*[,}]] only sees a name that
    comes first in its brace list.  On [import { foo, internal } from
    "../_generated/api";] the replacement pattern of the script itself
    finds the import of [internal], the detection does not, and the file is
    skipped as Skipped-NoMatch; on the combined fixture
    [import { api, internal } ...] the detection of [internal] fails too. *)
Theorem C2_detection_misses_later_name :
  test V2.internalImportRegex laterNameFixture = true /\
  hasInternalImport laterNameFixture = false /\
  hasApiImport laterNameFixture = false /\
  (forall depth, V2.processFile depth laterNameFixture =
                 mkResult laterNameFixture false SkippedNoMatch) /\
  test V2.internalImportRegex combinedFixture = true /\
  hasInternalImport combinedFixture = false.
Proof. repeat split; vm_compute; reflexivity. Qed.

(** The same defect seen from the same-line rule, which is reached only
    through the detection gate: on [import { foo, internal, api } from
    "./_generated/api";] the same-line pattern is found, both detections
    fail, and the file is skipped. *)
Example same_line_rule_behind_gate :
  test V2.sameLineCombinedRegex laterBothFixture = true /\
  includes laterBothFixture marker = false /\
  hasInternalImport laterBothFixture = false /\
  hasApiImport laterBothFixture = false /\
  (forall depth, V2.processFile depth laterBothFixture =
                 mkResult laterBothFixture false SkippedNoMatch).
Proof. repeat split; vm_compute; reflexivity. Qed.

(** C3. The same-line rule is not reached on every import that holds both
    names.  On [import { foo, internal, api } from "./_generated/api";] the
    text has no marker, the same-line pattern of the script finds the line
    and both names stand in its brace list as whole words; yet the
    detection gate in front of the rule skips the file, which comes back as
    it was, without any declaration.  With the same three names and
    [internal] first, the gate lets the file through and the rule replaces
    the line by the two declarations. *)
Theorem C3_same_line_rule_not_reached :
  includes laterBothFixture marker = false /\
  test V2.sameLineCombinedRegex laterBothFixture = true /\
  word_in_braces internal laterBothFixture = true /\
  word_in_braces api laterBothFixture = true /\
  (forall depth, V2.processFile depth laterBothFixture =
                 mkResult laterBothFixture false SkippedNoMatch) /\
  includes laterBothFixture (str "require(") = false /\
  V2.processFile 0 (importLine (str "internal, foo, api")
                      (str "./_generated/api")) =
    mkResult (combinedBlock (str "./_generated/api.js")) true Fixed.
Proof. repeat split; vm_compute; reflexivity. Qed.

(** A text that holds the marker is left as it is by the guard, also where
    the same-line pattern finds a line with both names. *)
Example marked_text_left_alone :
  test V2.sameLineCombinedRegex markedCombinedFixture = true /\
  V2.processFile 0 markedCombinedFixture =
    mkResult markedCombinedFixture false SkippedAlreadyPatched /\
  includes (newContent (V2.processFile 0 markedCombinedFixture))
    (requireLine internal (importPath 0)) = false.
Proof. repeat split; vm_compute; reflexivity. Qed.

Lemma requireLine_internal p :
  requireLine internal p =
  str "const internal = require('" ++ p ++ str "').internal as any;".
Proof. reflexivity. Qed.

Lemma requireLine_api p :
  requireLine api p =
  str "const api = require('" ++ p ++ str "').api as any;".
Proof. reflexivity. Qed.

(** The same-line rule, past the guard and the gate.  On a text without
    the marker on which one of the detections holds, when the same-line
    pattern is found the same-line rule is the one applied: the new text is
    the global replacement of that pattern alone by the template with the
    two declarations, so every match of the pattern is replaced by the
    template, the rest of the text is copied, the new text differs from the
    input and holds both declarations, and the file is Fixed. *)
Theorem V2_same_line_rule (depth : nat) (content : text) :
  includes content marker = false ->
  hasInternalImport content || hasApiImport content = true ->
  test V2.sameLineCombinedRegex content = true ->
  V2.processFile depth content =
    mkResult (replace V2.combinedImportRegex (combinedBlock (importPath depth))
                content)
             true Fixed /\
  spliced [(V2.combinedImportRegex, combinedBlock (importPath depth))]
    None content (newContent (V2.processFile depth content)) /\
  (exists a b, newContent (V2.processFile depth content) =
               a ++ combinedBlock (importPath depth) ++ b) /\
  newContent (V2.processFile depth content) <> content /\
  includes (newContent (V2.processFile depth content))
    (str "const internal = require('" ++ importPath depth ++
     str "').internal as any;") = true /\
  includes (newContent (V2.processFile depth content))
    (str "const api = require('" ++ importPath depth ++
     str "').api as any;") = true.
Proof.
  intros Hm Hd Hc.
  assert (E : V2.processFile depth content =
              mkResult (replace V2.combinedImportRegex
                          (combinedBlock (importPath depth)) content)
                       true Fixed).
  { unfold V2.processFile. rewrite Hm, Hc.
    destruct (hasInternalImport content), (hasApiImport content);
      try discriminate; reflexivity. }
  split; [exact E|]. rewrite E. cbn [newContent].
  split; [apply replace_spliced|].
  destruct (test_replace_inserts V2.combinedImportRegex
              (combinedBlock (importPath depth)) content Hc) as [a [b Hab]].
  split; [exists a, b; exact Hab|]. rewrite Hab.
  split.
  { intros H. symmetry in H. revert H.
    apply (includes_differs _ _ marker Hm).
    apply includes_within, combinedBlock_marker. }
  rewrite <- requireLine_internal, <- requireLine_api.
  split; apply includes_within, includes_infix; unfold combinedBlock.
  - exists (bypassLine ++ [LF] ++ eslintLine ++ [LF]).
    exists ([LF] ++ eslintLine ++ [LF] ++ requireLine api (importPath depth)).
    rewrite <- !app_assoc. reflexivity.
  - exists (bypassLine ++ [LF] ++ eslintLine ++ [LF] ++
            requireLine internal (importPath depth) ++ [LF] ++ eslintLine ++ [LF]).
    exists []. rewrite <- !app_assoc, app_nil_r. reflexivity.
Qed.

Lemma V2_same_line_rule_witness :
  (includes combinedFixture marker = false /\
   hasInternalImport combinedFixture || hasApiImport combinedFixture = true /\
   test V2.sameLineCombinedRegex combinedFixture = true) /\
  V2.processFile 0 combinedFixture =
    mkResult
      (str "// Bypass TS2589 by using require() which doesn't trigger type inference"
       ++ [LF] ++
       str "// eslint-disable-next-line @typescript-eslint/no-explicit-any, @typescript-eslint/no-require-imports"
       ++ [LF] ++
       str "const internal = require('./_generated/api.js').internal as any;"
       ++ [LF] ++
       str "// eslint-disable-next-line @typescript-eslint/no-explicit-any, @typescript-eslint/no-require-imports"
       ++ [LF] ++
       str "const api = require('./_generated/api.js').api as any;")
      true Fixed.
Proof.
  split; [repeat split; vm_compute; reflexivity|].
  destruct (V2_same_line_rule 0 combinedFixture) as [E _];
    [vm_compute; reflexivity ..|].
  rewrite E. vm_compute. reflexivity.
Defined.

(** The combined fixture: the line becomes the two declarations, the
    original line is gone, and the marker stands once in the block. *)
Example same_line_fixture :
  V2.processFile 0 combinedFixture =
    mkResult (combinedBlock (str "./_generated/api.js")) true Fixed /\
  includes (combinedBlock (str "./_generated/api.js"))
    (requireLine internal (str "./_generated/api.js")) = true /\
  includes (combinedBlock (str "./_generated/api.js"))
    (requireLine api (str "./_generated/api.js")) = true /\
  includes (combinedBlock (str "./_generated/api.js")) combinedFixture = false /\
  occurrences marker (combinedBlock (str "./_generated/api.js")) = 1.
Proof. repeat split; vm_compute; reflexivity. Qed.

(** The two names are looked for one by one: any order, other names in
    between. *)
Example same_line_any_order :
  V2.processFile 0 (importLine (str "api, helper, internal")
                      (str "./_generated/api")) =
    mkResult (combinedBlock (str "./_generated/api.js")) true Fixed /\
  V2.processFile 0 (importLine (str "internal, helper, api")
                      (str "./_generated/api")) =
    mkResult (combinedBlock (str "./_generated/api.js")) true Fixed.
Proof. split; vm_compute; reflexivity. Qed.

(** The same-line rule wins over the separate-line rule: the separate
    import of [internal] on the first line stays as it is. *)
Example same_line_rule_first :
  V2.processFile 0 (importLine (str "internal") (str "./_generated/api")
                    ++ [LF] ++ combinedFixture) =
    mkResult (importLine (str "internal") (str "./_generated/api")
              ++ [LF] ++ combinedBlock (str "./_generated/api.js"))
             true Fixed.
Proof. vm_compute. reflexivity. Qed.

(** The single-name fixture. *)
Example single_name_fixture :
  V2.processFile 1 internalFixture =
    mkResult (singleBlock internal (str "../_generated/api.js")) true Fixed /\
  includes (singleBlock internal (str "../_generated/api.js"))
    (str "const internal = require('../_generated/api.js').internal as any;")
    = true /\
  includes (singleBlock internal (str "../_generated/api.js")) internalFixture
    = false.
Proof. repeat split; vm_compute; reflexivity. Qed.

(** ** Frame of the rewriter *)

(** C10, as stated, fails on an import written over several lines: the
    classes [\s] and [[^}]] of the patterns read across line terminators, so
    one match covers the three lines of the import.  None of the three lines
    matches a replacement pattern, and none of them is in the output. *)
Lemma C10_multiline_import_replaced :
  lines multilineFixture =
    [ str "import {"; str "  internal";
      str "} from " ++ [DQ] ++ str "../_generated/api" ++ [DQ] ++ str ";";
      str "export const n = 1;" ] /\
  forallb unmatched_line (lines multilineFixture) = true /\
  V2.processFile 1 multilineFixture =
    mkResult (singleBlock internal (importPath 1) ++ [LF] ++
              str "export const n = 1;") true Fixed /\
  has_line (str "import {")
    (newContent (V2.processFile 1 multilineFixture)) = false /\
  has_line (str "  internal")
    (newContent (V2.processFile 1 multilineFixture)) = false.
Proof. repeat split; vm_compute; reflexivity. Qed.

(** C10, amended.  All rewriting is local to the spans matched by the
    replacement patterns.  The new text comes from the input by at most two
    passes; each pass replaces segments matched by a replacement pattern by
    the template of that pattern and copies every other code unit, in
    order.  A matched segment begins at a line start with [import] and ends
    at a line end: it is one or several whole lines. *)
Theorem C10_rewrite_frame (depth : nat) (content : text) :
  (exists mid,
     spliced (rules depth) None content mid /\
     spliced (rules depth) None mid
       (newContent (V2.processFile depth content))) /\
  (forall r rep, In (r, rep) (rules depth) -> line_anchored r).
Proof.
  split.
  2:{ intros r rep [[= <- _] | [[= <- _] | [[= <- _] | []]]];
        apply V2_importRegex_anchored. }
  assert (Hc : forall s, spliced (rules depth) None s
             (replace V2.combinedImportRegex (combinedBlock (importPath depth)) s)).
  { intros s. eapply spliced_mono; [|apply replace_spliced].
    intros x [<- | []]. simpl; auto. }
  assert (Hi : forall s, spliced (rules depth) None s
             (replace V2.internalImportRegex
                (singleBlock internal (importPath depth)) s)).
  { intros s. eapply spliced_mono; [|apply replace_spliced].
    intros x [<- | []]. simpl; auto. }
  assert (Ha : forall s, spliced (rules depth) None s
             (replace V2.apiImportRegex (singleBlock api (importPath depth)) s)).
  { intros s. eapply spliced_mono; [|apply replace_spliced].
    intros x [<- | []]. simpl; auto. }
  assert (Hrefl : forall s, spliced (rules depth) None s s)
    by (intros s; apply spliced_refl).
  unfold V2.processFile.
  destruct (includes content marker); [exists content; split; apply Hrefl|].
  destruct (hasInternalImport content), (hasApiImport content);
    cbv zeta; cbn [negb andb];
    try (exists content; split; apply Hrefl).
  all: destruct (test V2.sameLineCombinedRegex content);
    [ rewrite finish_newContent; exists content; split; [apply Hrefl | apply Hc] | ].
  - rewrite finish_newContent. eexists; split; [apply Hi | apply Ha].
  - destruct (test V2.internalImportRegex content);
      rewrite finish_newContent; exists content; split; auto.
  - destruct (test V2.apiImportRegex content);
      rewrite finish_newContent; exists content; split; auto.
Qed.

(** ** Version two matches wherever version one does *)

Ltac norm_app :=
  repeat (progress cbn [app] || rewrite <- app_assoc || rewrite app_nil_r
          || rewrite <- app_comm_cons).

Lemma Matches_ctx_free r prev m rest :
  Matches r prev m rest -> ctx_free r = true ->
  forall prev' rest', Matches r prev' m rest'.
Proof.
  induction 1; cbn [ctx_free]; intros Hc prev2 rest2;
    try discriminate; try apply andb_true_iff in Hc as [H1 H2];
    eauto using Matches.
Qed.

Lemma Matches_seqs_glue l1 l2 prev m1 m2 rest :
  Matches (seqs l1) prev m1 (m2 ++ rest) ->
  Matches (seqs l2) (lastc prev m1) m2 rest ->
  Matches (seqs (l1 ++ l2)) prev (m1 ++ m2) rest.
Proof.
  revert prev m1. induction l1 as [|r l1 IH]; intros prev m1 H1 H2;
    cbn [seqs app] in *.
  - inversion H1; subst. exact H2.
  - inversion H1 as [| | | | ? ? ? n1 n2 ? Ha Hb | | | | | | | | |]; subst.
    rewrite <- app_assoc. apply M_Seq; [rewrite <- app_assoc; exact Ha|].
    apply IH; [exact Hb|]. rewrite <- lastc_app. exact H2.
Qed.

Lemma V1_importRegex_shape body :
  V1.importRegex body =
  seqs ([Bol; Lit (str "import"); PlusCls isSpace; Chr LBRACE;
         StarCls notRBrace; body; StarCls notRBrace; Chr RBRACE]
        ++ fromClause ++ [StarCls isSpace; Eol]).
Proof. reflexivity. Qed.

Lemma V2_nameImportRegex_shape name :
  V2.nameImportRegex name =
  seqs ([Bol; Lit (str "import"); PlusCls isSpace;
         Opt (Seq (Lit (str "type")) (PlusCls isSpace)); Chr LBRACE;
         StarCls notRBrace; WordB; Lit name; WordB; StarCls notRBrace;
         Chr RBRACE]
        ++ fromClause ++ [StarCls isDot; Eol]).
Proof. reflexivity. Qed.

(** The pieces of a match of a pattern of version one. *)
Lemma V1_importRegex_inv body prev m rest :
  Matches (V1.importRegex body) prev m rest ->
  exists ws1 b1 mb b2 m3 ws pb rb,
    m = str "import" ++ ws1 ++ LBRACE :: b1 ++ mb ++ b2 ++ RBRACE :: m3 ++ ws /\
    at_bol prev = true /\
    Matches (PlusCls isSpace) None ws1 [] /\
    forallb notRBrace b1 = true /\
    Matches body pb mb rb /\
    forallb notRBrace b2 = true /\
    Matches (seqs fromClause) None m3 [] /\
    forallb isSpace ws = true /\
    at_eol rest = true.
Proof.
  rewrite V1_importRegex_shape. intros H.
  apply Matches_seqs_app in H. destruct H as [x1 [x2 [-> [H1 H2]]]].
  apply Matches_seqs_app in H2. destruct H2 as [m3 [x3 [-> [H2 H3]]]].
  cbn [seqs] in H1.
  inversion H1 as [| | | | ? ? ? n1 n2 ? Ha Hb | | | | | | | | |]; subst; clear H1.
  inversion Ha; subst; clear Ha.
  inversion Hb as [| | | | ? ? ? n1 n2' ? Hc Hd | | | | | | | | |]; subst; clear Hb.
  inversion Hc; subst; clear Hc.
  inversion Hd as [| | | | ? ? ? ws1 n3 ? He Hf | | | | | | | | |]; subst; clear Hd.
  inversion Hf as [| | | | ? ? ? n4 n5 ? Hg Hh | | | | | | | | |]; subst; clear Hf.
  inversion Hg; subst; clear Hg.
  inversion Hh as [| | | | ? ? ? b1 n6 ? Hi Hj | | | | | | | | |]; subst; clear Hh.
  inversion Hi; subst; clear Hi.
  inversion Hj as [| | | | ? ? ? mb n7 ? Hk Hl | | | | | | | | |]; subst; clear Hj.
  inversion Hl as [| | | | ? ? ? b2 n8 ? Hm Hn | | | | | | | | |]; subst; clear Hl.
  inversion Hm; subst; clear Hm.
  revert He Hk H2. inv_matches. intros Hws Hbody Hfrom.
  match goal with
  | Hsp : forallb isSpace ?w = true |- _ => exists ws1, b1, mb, b2, m3, w
  end.
  do 2 eexists.
  split; [norm_app; reflexivity|].
  split; [assumption|].
  split; [eapply Matches_ctx_free; [exact Hws | reflexivity]|].
  split; [assumption|].
  split; [exact Hbody|].
  split; [assumption|].
  split; [eapply Matches_ctx_free; [exact Hfrom | reflexivity]|].
  split; assumption.
Qed.

Lemma glued_in_braces_tail w a x :
  glued_in_braces w (a ++ x) = false -> glued_in_braces w x = false.
Proof.
  induction a as [|c a IH]; cbn [app glued_in_braces]; [auto|].
  intros H. apply orb_false_iff in H as [_ H]. auto.
Qed.

Lemma glued_in_body_skip w x : forall prev y,
  forallb notRBrace x = true ->
  glued_in_body w prev (x ++ y) = false ->
  glued_in_body w (lastc prev x) y = false.
Proof.
  induction x as [|c x IH]; intros prev y; cbn [app glued_in_body lastc forallb];
    [auto|].
  rewrite andb_true_iff. intros [Hc Hx] H. rewrite Hc in H. cbn [andb] in H.
  apply orb_false_iff in H as [_ H]. auto.
Qed.

(** Where no brace list holds [name] glued to a word character, an
    occurrence of [name] in a brace list has a word boundary on each side. *)
Lemma glued_boundaries name a b1 t :
  wordy name -> forallb notRBrace b1 = true ->
  glued_in_braces name (a ++ LBRACE :: b1 ++ name ++ t) = false ->
  word_before (lastc (Some LBRACE) b1) = false /\ word_after t = false.
Proof.
  intros [Hhead Hlast] Hb H. apply glued_in_braces_tail in H.
  cbn [glued_in_braces] in H. apply orb_false_iff in H as [H _].
  rewrite N.eqb_refl in H. cbn [andb] in H.
  apply glued_in_body_skip in H; [|exact Hb].
  destruct (wordy_notRBrace_head name t Hhead) as [c [u [E Hc]]].
  rewrite E in H. cbn [glued_in_body] in H. rewrite Hc, <- E in H.
  cbn [andb] in H. apply orb_false_iff in H as [H _].
  unfold glued_here in H. rewrite starts_with_app, skipn_length_app in H.
  cbn [andb] in H. apply orb_false_iff in H. exact H.
Qed.

(** A run of white space, cut at its first line terminator. *)
Lemma spaces_to_line_end ws rest :
  at_eol rest = true ->
  exists d ws', ws = d ++ ws' /\ forallb isDot d = true /\
                at_eol (ws' ++ rest) = true.
Proof.
  intros He. induction ws as [|c ws [d [ws' [-> [Hd Hw]]]]].
  - exists [], []. auto.
  - destruct (isLineTerminator c) eqn:Hc.
    + exists [], (c :: d ++ ws'). simpl. auto.
    + exists (c :: d), ws'. simpl. unfold isDot at 1. rewrite Hc. auto.
Qed.

Lemma word_after_nonempty l x y :
  l <> [] -> word_after (l ++ x) = word_after (l ++ y).
Proof. destruct l; [contradiction | reflexivity]. Qed.

(** The pieces of a match of a single-name pattern of version two, put
    together. *)
Lemma V2_nameImportRegex_intro name prev ws1 b1 b2 m3 d rest :
  wordy name -> at_bol prev = true ->
  Matches (PlusCls isSpace) None ws1 [] ->
  forallb notRBrace b1 = true -> forallb notRBrace b2 = true ->
  word_before (lastc (Some LBRACE) b1) = false ->
  word_after (b2 ++ [RBRACE]) = false ->
  Matches (seqs fromClause) None m3 [] ->
  forallb isDot d = true -> at_eol rest = true ->
  Matches (V2.nameImportRegex name) prev
    (str "import" ++ ws1 ++ LBRACE :: b1 ++ name ++ b2 ++ RBRACE :: m3 ++ d)
    rest.
Proof.
  intros [Hhead Hlast] Hbol Hws Hb1 Hb2 Hbefore Hafter Hfrom Hd Heol.
  rewrite V2_nameImportRegex_shape.
  change (str "import" ++ ws1 ++ LBRACE :: b1 ++ name ++ b2 ++ RBRACE :: m3 ++ d)
    with (str "import" ++ ws1 ++ [LBRACE] ++ b1 ++ name ++ b2 ++ [RBRACE] ++ m3 ++ d).
  replace (str "import" ++ ws1 ++ [LBRACE] ++ b1 ++ name ++ b2 ++ [RBRACE] ++ m3 ++ d)
    with (([] ++ str "import" ++ ws1 ++ [] ++ [LBRACE] ++ b1 ++ [] ++ name ++ []
           ++ b2 ++ [RBRACE] ++ []) ++ (m3 ++ (d ++ [] ++ [])))
    by (norm_app; reflexivity).
  apply Matches_seqs_glue; [|apply Matches_seqs_glue].
  - cbn [seqs]. repeat apply M_Seq; try (constructor; assumption).
    + eapply Matches_ctx_free; [exact Hws | reflexivity].
    + apply M_WordB. cbn [lastc app]. unfold at_wordb.
      rewrite Hbefore, <- app_assoc, (word_after_app _ _ Hhead). reflexivity.
    + apply M_WordB. cbn [lastc app]. unfold at_wordb.
      rewrite Hlast, (word_after_nonempty (b2 ++ [RBRACE]) _ []), app_nil_r, Hafter;
        [reflexivity | destruct b2; discriminate].
  - eapply Matches_ctx_free; [exact Hfrom | reflexivity].
  - cbn [seqs]. repeat apply M_Seq; try (constructor; assumption).
Qed.

(** Version two is the more tolerant one, word boundaries apart: where a
    pattern of version one matches with a name that is a whole word, the
    single-name pattern of version two for that name matches from the same
    place. *)
Lemma V1_match_gives_V2 body prev m rest :
  Matches (V1.importRegex body) prev m rest ->
  exists pb name rb,
    Matches body pb name rb /\
    (wordy name -> glued_in_braces name (m ++ rest) = false ->
     exists m' rest', m ++ rest = m' ++ rest' /\
                      Matches (V2.nameImportRegex name) prev m' rest').
Proof.
  intros H. apply V1_importRegex_inv in H.
  destruct H as (ws1 & b1 & mb & b2 & m3 & ws & pb & rb & -> & Hbol & Hws &
                 Hb1 & Hmb & Hb2 & Hfrom & Hsp & Heol).
  exists pb, mb, rb. split; [exact Hmb|]. intros Hn Hg.
  destruct (spaces_to_line_end ws rest Heol) as [d [ws' [-> [Hd He]]]].
  exists (str "import" ++ ws1 ++ LBRACE :: b1 ++ mb ++ b2 ++ RBRACE :: m3 ++ d),
         (ws' ++ rest).
  split; [norm_app; reflexivity|].
  replace ((str "import" ++ ws1 ++ LBRACE :: b1 ++ mb ++ b2 ++
            RBRACE :: m3 ++ d ++ ws') ++ rest)
    with ((str "import" ++ ws1) ++ LBRACE :: b1 ++ mb ++
          (b2 ++ [RBRACE] ++ m3 ++ d ++ ws' ++ rest)) in Hg
    by (norm_app; reflexivity).
  destruct (glued_boundaries _ _ _ _ Hn Hb1 Hg) as [Hbefore Hafter].
  apply V2_nameImportRegex_intro; auto.
  rewrite app_assoc in Hafter.
  rewrite (word_after_nonempty (b2 ++ [RBRACE]) _ []), app_nil_r in Hafter;
    [exact Hafter | destruct b2; discriminate].
Qed.

Lemma V1_test_gives_V2 body s :
  test (V1.importRegex body) s = true ->
  exists pb name rb,
    Matches body pb name rb /\
    (wordy name -> glued_in_braces name s = false ->
     test (V2.nameImportRegex name) s = true).
Proof.
  intros H. apply search_sound in H. destruct H as [a [m [b [-> M]]]].
  apply V1_match_gives_V2 in M. destruct M as (pb & name & rb & Hb & H).
  exists pb, name, rb. split; [exact Hb|]. intros Hn Hg.
  apply glued_in_braces_tail in Hg.
  destruct (H Hn Hg) as [m' [rest' [E M']]].
  unfold test. rewrite E. apply search_complete. exact M'.
Qed.

Lemma V1_internal_gives_V2 s :
  glued_in_braces internal s = false ->
  test V1.internalImportRegex s = true -> test V2.internalImportRegex s = true.
Proof.
  intros Hg H. apply V1_test_gives_V2 in H.
  destruct H as (pb & name & rb & Hb & H). inversion Hb; subst.
  apply H; [apply internal_wordy | exact Hg].
Qed.

Lemma V1_api_gives_V2 s :
  glued_in_braces api s = false ->
  test V1.apiImportRegex s = true -> test V2.apiImportRegex s = true.
Proof.
  intros Hg H. apply V1_test_gives_V2 in H.
  destruct H as (pb & name & rb & Hb & H). inversion Hb; subst.
  apply H; [apply api_wordy | exact Hg].
Qed.

Lemma V1_combined_gives_V2 s :
  glued_in_braces internal s = false -> glued_in_braces api s = false ->
  test V1.combinedImportRegex s = true ->
  test V2.internalImportRegex s = true \/ test V2.apiImportRegex s = true.
Proof.
  intros Gi Ga H. apply V1_test_gives_V2 in H.
  destruct H as (pb & name & rb & Hb & H).
  inversion Hb as [| | | | | ? ? ? ? ? Hl | ? ? ? ? ? Hr | | | | | | |]; subst.
  - inversion Hl; subst. left. apply H; [apply internal_wordy | exact Gi].
  - inversion Hr; subst. right. apply H; [apply api_wordy | exact Ga].
Qed.

(** A pass whose pattern is found changes a text that is free of the
    marker. *)
Lemma replace_changes r rep s :
  includes s marker = false -> includes rep marker = true ->
  test r s = true -> negb (text_eqb s (replace r rep s)) = true.
Proof.
  intros Hs Hrep Ht. apply text_neqb_neq.
  destruct (test_replace_inserts r rep s Ht) as [a [b E]].
  apply (includes_differs _ _ marker Hs). rewrite E.
  apply includes_within; exact Hrep.
Qed.

(** Whenever version one reports a file as modified, so does version two,
    provided no brace list holds a name that merely contains [internal] or
    [api]. *)
Lemma V2_modifies_where_V1_does depth content :
  glued_in_braces internal content = false ->
  glued_in_braces api content = false ->
  modified (V1.processFile depth content) = true ->
  modified (V2.processFile depth content) = true.
Proof.
  intros Gi Ga. unfold V1.processFile, V2.processFile.
  destruct (includes content marker) eqn:Hm; [discriminate|].
  destruct (hasInternalImport content), (hasApiImport content);
    cbv zeta; cbn [negb andb]; try discriminate.
  all: destruct (test V2.sameLineCombinedRegex content);
    [ intros _; apply finish_modified | ].
  - destruct (test V1.combinedImportRegex content) eqn:T; [|discriminate].
    intros _. rewrite finish_modified.
    destruct (V1_combined_gives_V2 _ Gi Ga T) as [Ti | Ta].
    + rewrite (replace_changes _ _ _ Hm (singleBlock_marker _ _) Ti).
      reflexivity.
    + destruct (test V2.internalImportRegex content) eqn:Ti.
      * rewrite (replace_changes _ _ _ Hm (singleBlock_marker _ _) Ti).
        reflexivity.
      * rewrite (test_false_replace _ _ _ Ti), text_eqb_refl.
        rewrite (replace_changes _ _ _ Hm (singleBlock_marker _ _) Ta).
        reflexivity.
  - destruct (test V1.internalImportRegex content) eqn:T; [|discriminate].
    intros _. rewrite (V1_internal_gives_V2 _ Gi T), finish_modified.
    apply replace_changes; auto using singleBlock_marker, V1_internal_gives_V2.
  - destruct (test V1.apiImportRegex content) eqn:T; [|discriminate].
    intros _. rewrite (V1_api_gives_V2 _ Ga T), finish_modified.
    apply replace_changes; auto using singleBlock_marker, V1_api_gives_V2.
Qed.

(** ** Version one against version two *)



(** ** Where the two versions read an import alike *)






































(** The converse fails: version two accepts a [type] qualifier, version one
    does not. *)
Example V2_more_tolerant :
  modified (V2.processFile 1
              (str "import type { internal } from " ++ [DQ] ++
               str "../_generated/api" ++ [DQ] ++ str ";")) = true /\
  modified (V1.processFile 1
              (str "import type { internal } from " ++ [DQ] ++
               str "../_generated/api" ++ [DQ] ++ str ";")) = false.
Proof. split; vm_compute; reflexivity. Qed.

(** ** The same-line pattern looks for the two names one by one *)

Lemma word_in_body_inv w : forall prev s,
  word_in_body w prev s = true ->
  exists x t, s = x ++ w ++ t /\ forallb notRBrace x = true /\
              word_before (lastc prev x) = false /\ word_after t = false.
Proof.
  intros prev s; revert prev. induction s as [|c s IH]; intros prev;
    cbn [word_in_body]; [discriminate|].
  rewrite andb_true_iff, orb_true_iff. intros [Hc [H | H]].
  - unfold word_here in H. rewrite !andb_true_iff, !negb_true_iff in H.
    destruct H as [[Hb Hs] Ha]. apply starts_with_prefix in Hs as [t Ht].
    rewrite Ht, skipn_length_app in Ha. exists [], t. rewrite Ht. auto.
  - destruct (IH _ H) as [x [t [-> [Hx [Hb Ha]]]]].
    exists (c :: x), t. cbn [app forallb lastc]. rewrite Hc, Hx. auto.
Qed.

Lemma word_after_before_brace t z :
  word_after t = false -> word_after (t ++ RBRACE :: z) = false.
Proof. destruct t; simpl; auto. Qed.

(** The rest of a line. *)
Lemma text_to_line_end post :
  exists d post', post = d ++ post' /\ forallb isDot d = true /\
                  at_eol post' = true.
Proof.
  induction post as [|c post [d [post' [-> [Hd He]]]]].
  - exists [], []. auto.
  - destruct (isLineTerminator c) eqn:Hc.
    + exists [], (c :: d ++ post'). simpl. auto.
    + exists (c :: d), post'. simpl. unfold isDot at 1. rewrite Hc. auto.
Qed.

(** The lookahead [(?=[^}]*\bNAME\b)] right after the opening brace of a
    brace list [b] that holds [name] as a whole word. *)
Lemma wordInBraces_look name b z :
  wordy name -> word_in_body name (Some LBRACE) b = true ->
  Matches (Look (V2.wordInBraces name)) (Some LBRACE) [] (b ++ RBRACE :: z).
Proof.
  intros [Hhead Hlast] H. apply word_in_body_inv in H.
  destruct H as [x [t [-> [Hx [Hb Ha]]]]].
  apply (M_Look _ _ (x ++ [] ++ name ++ [] ++ []) (t ++ RBRACE :: z));
    [|norm_app; reflexivity].
  unfold V2.wordInBraces. cbn [seqs].
  repeat apply M_Seq; try (constructor; assumption).
  - apply M_WordB. unfold at_wordb. rewrite Hb. norm_app.
    rewrite (word_after_app _ _ Hhead). reflexivity.
  - apply M_WordB. unfold at_wordb. cbn [lastc app].
    rewrite Hlast, (word_after_before_brace _ _ Ha). reflexivity.
Qed.

Lemma V2_combinedImportRegex_shape :
  V2.combinedImportRegex =
  seqs ([Bol; Lit (str "import"); PlusCls isSpace;
         Opt (Seq (Lit (str "type")) (PlusCls isSpace)); Chr LBRACE;
         Look (V2.wordInBraces internal); Look (V2.wordInBraces api);
         StarCls notRBrace; Chr RBRACE]
        ++ fromClause ++ [StarCls isDot; Eol]).
Proof. reflexivity. Qed.

(** Any order, other names in between: an import at a line start whose
    brace list holds [internal] and [api] as whole words, followed by a
    from-clause with a qualifying specifier, is found by the same-line
    pattern, whatever stands before the line and after the clause. *)
Lemma same_line_pattern_found pre ws1 b m3 post :
  at_bol (lastc None pre) = true ->
  Matches (PlusCls isSpace) None ws1 [] ->
  forallb notRBrace b = true ->
  word_in_body internal (Some LBRACE) b = true ->
  word_in_body api (Some LBRACE) b = true ->
  Matches (seqs fromClause) None m3 [] ->
  test V2.sameLineCombinedRegex
    (pre ++ (str "import" ++ ws1 ++ LBRACE :: b ++ RBRACE :: m3) ++ post) = true.
Proof.
  intros Hbol Hws Hb Hi Ha Hfrom.
  destruct (text_to_line_end post) as [d [post' [-> [Hd He]]]].
  replace (pre ++ (str "import" ++ ws1 ++ LBRACE :: b ++ RBRACE :: m3)
           ++ d ++ post')
    with (pre ++ (([] ++ str "import" ++ ws1 ++ [] ++ [LBRACE] ++ [] ++ []
                   ++ b ++ [RBRACE] ++ []) ++ m3 ++ (d ++ [] ++ [])) ++ post')
    by (norm_app; reflexivity).
  apply search_complete. unfold V2.sameLineCombinedRegex.
  rewrite V2_combinedImportRegex_shape.
  apply Matches_seqs_glue; [|apply Matches_seqs_glue].
  - cbn [seqs]. repeat apply M_Seq; try (constructor; assumption).
    + eapply Matches_ctx_free; [exact Hws | reflexivity].
    + cbn [lastc app]. rewrite <- app_assoc.
      apply wordInBraces_look; [apply internal_wordy | exact Hi].
    + cbn [lastc app]. rewrite <- app_assoc.
      apply wordInBraces_look; [apply api_wordy | exact Ha].
  - eapply Matches_ctx_free; [exact Hfrom | reflexivity].
  - cbn [seqs]. repeat apply M_Seq; try (constructor; assumption).
Qed.

(** What the matcher reads is a match: the from-clause of the combined
    fixture. *)
Lemma fromClause_fixture :
  Matches (seqs fromClause) None
    (str " from " ++ [DQ] ++ str "./_generated/api.js" ++ [DQ] ++ str ";") [].
Proof.
  assert (H : match_here (seqs fromClause) None
                (str " from " ++ [DQ] ++ str "./_generated/api.js" ++ [DQ]
                 ++ str ";") = Some (Some SEMI, []))
    by (vm_compute; reflexivity).
  apply match_here_sound in H. destruct H as [m [rest' [E [M [= _ <-]]]]].
  rewrite app_nil_r in E. rewrite E. exact M.
Qed.

(** For instance with the two names far apart and in either order, in the
    middle of a file. *)
Example same_line_pattern_found_instance :
  test V2.sameLineCombinedRegex
    ((str "// jobs" ++ [LF]) ++
     (str "import " ++ LBRACE :: str " api, helper, internal " ++
      RBRACE :: str " from " ++ [DQ] ++ str "./_generated/api.js" ++
      [DQ] ++ str ";") ++ LF :: str "export {};") = true.
Proof.
  apply (same_line_pattern_found (str "// jobs" ++ [LF]) (str " ")
           (str " api, helper, internal ") _ (LF :: str "export {};"));
    try reflexivity.
  - unfold PlusCls. apply (M_Seq _ _ None [32%N] []); constructor; reflexivity.
  - apply fromClause_fixture.
Defined.

(** ** The detection wants the name first in its brace list *)

Lemma skip_spaces_app ws t :
  forallb isSpace ws = true ->
  match t with c :: _ => isSpace c = false | [] => True end ->
  skip_spaces (ws ++ t) = t.
Proof.
  intros Hws Ht. induction ws as [|c ws IH]; cbn [app].
  - destruct t as [|c t]; [reflexivity|]. cbn [skip_spaces]. rewrite Ht.
    reflexivity.
  - cbn [forallb] in Hws. apply andb_true_iff in Hws as [Hc Hws].
    cbn [skip_spaces]. rewrite Hc. auto.
Qed.

Lemma word_not_space c : isWordChar c = true -> isSpace c = false.
Proof.
  intros Hw. destruct (isSpace c) eqn:Hs; [|reflexivity].
  apply space_not_word in Hs. congruence.
Qed.

Lemma commaOrRBrace_not_space c : isCommaOrRBrace c = true -> isSpace c = false.
Proof.
  unfold isCommaOrRBrace, COMMA, RBRACE.
  rewrite orb_true_iff, !N.eqb_eq. intros [-> | ->]; reflexivity.
Qed.

Lemma first_in_braces_skip w a b :
  first_in_braces w b = true -> first_in_braces w (a ++ b) = true.
Proof.
  intros H. induction a as [|c a IH]; simpl; [exact H|].
  rewrite IH. apply orb_true_r.
Qed.

(** A match of the detection pattern shows [name] as the first name of a
    brace list. *)
Lemma detectRegex_first name prev m rest :
  word_after name = true ->
  Matches (detectRegex name) prev m rest ->
  first_in_braces name (m ++ rest) = true.
Proof.
  intros Hn H. unfold detectRegex in H.
  apply (Matches_seqs_app
           [Bol; Lit (str "import"); PlusCls isSpace; StarCls isDot]) in H.
  destruct H as [m1 [m2 [-> [_ H]]]].
  rewrite <- app_assoc. apply first_in_braces_skip.
  apply (Matches_seqs_app
           [Chr LBRACE; StarCls isSpace; Lit name; StarCls isSpace;
            Cls isCommaOrRBrace]) in H.
  destruct H as [m3 [m4 [-> [H _]]]].
  inv_matches. norm_app. cbn [first_in_braces]. rewrite N.eqb_refl. cbn [andb].
  apply orb_true_iff; left. unfold first_here.
  match goal with
  | H1 : forallb isSpace ?a = true, H2 : forallb isSpace ?b = true,
    Hc : isCommaOrRBrace ?c = true
    |- context [skip_spaces (?a ++ ?n ++ ?b ++ ?c :: ?z)] =>
      rewrite (skip_spaces_app a (n ++ b ++ c :: z) H1);
      [ rewrite starts_with_app, skipn_length_app,
          (skip_spaces_app b (c :: z) H2), Hc;
        [reflexivity | apply commaOrRBrace_not_space; exact Hc]
      | destruct n as [|x n]; [discriminate|];
        apply word_not_space; exact Hn ]
  end.
Qed.

(** Where neither name is the first of a brace list, the file is skipped:
    the detection gate stops every text whose imports list [internal] and
    [api] after another name, whatever the replacement patterns would
    find. *)
Lemma detection_wants_first_name depth content :
  first_in_braces internal content = false ->
  first_in_braces api content = false ->
  hasInternalImport content = false /\ hasApiImport content = false /\
  newContent (V2.processFile depth content) = content /\
  modified (V2.processFile depth content) = false.
Proof.
  intros Hi Ha.
  assert (D : forall name, word_after name = true ->
                first_in_braces name content = false ->
                test (detectRegex name) content = false).
  { intros name Hn Hf. destruct (test (detectRegex name) content) eqn:E;
      [|reflexivity].
    apply search_sound in E. destruct E as [a [m [b [-> M]]]].
    apply (detectRegex_first _ _ _ _ Hn) in M.
    rewrite (first_in_braces_skip _ a _ M) in Hf. discriminate. }
  assert (Di : hasInternalImport content = false) by (apply D; auto).
  assert (Da : hasApiImport content = false) by (apply D; auto).
  split; [exact Di|]. split; [exact Da|].
  unfold V2.processFile. rewrite Di, Da.
  destruct (includes content marker); split; reflexivity.
Qed.

Example detection_wants_first_name_instance :
  first_in_braces internal laterBothFixture = false /\
  first_in_braces api laterBothFixture = false /\
  test V2.sameLineCombinedRegex laterBothFixture = true /\
  modified (V2.processFile 0 laterBothFixture) = false.
Proof.
  split; [vm_compute; reflexivity|]. split; [vm_compute; reflexivity|].
  split; [vm_compute; reflexivity|].
  apply (detection_wants_first_name 0 laterBothFixture); vm_compute; reflexivity.
Defined.

(** * The file walker and the main loop *)

(** ** Induction on file trees *)

Lemma node_induction (P : node -> Prop) :
  (forall content, P (File content)) ->
  (forall entries, Forall (fun entry => P (snd entry)) entries ->
                   P (Dir entries)) ->
  forall st, P st.
Proof.
  intros HF HD. fix IH 1. intros [content | entries]; [apply HF|].
  apply HD. induction entries as [|entry entries IHe]; constructor;
    [apply IH | exact IHe].
Qed.

(** ** [findTsFiles] *)

Lemma visitEntry_recur dir fileList file stat :
  visitEntry (fun filePath _ fileList => findTsFilesIn filePath stat fileList)
    dir fileList (file, stat) =
  visitEntry findTsFilesIn dir fileList (file, stat).
Proof. unfold visitEntry. cbn [fst snd]. destruct stat; reflexivity. Qed.

(** The loop over the entries of a directory. *)
Lemma findTsFilesIn_Dir dir files fileList :
  findTsFilesIn dir (Dir files) fileList =
  fold_left (visitEntry findTsFilesIn dir) files fileList.
Proof.
  cbn [findTsFilesIn]. revert fileList.
  induction files as [|[file stat] files IH]; intros fileList; [reflexivity|].
  cbn [fold_left]. rewrite <- visitEntry_recur. apply IH.
Qed.

(** The list passed in is kept, in order, and what is found is pushed
    after it. *)
Lemma visitEntry_accumulates dir fileList entry :
  (forall dir' fileList',
     findTsFilesIn dir' (snd entry) fileList' =
     fileList' ++ findTsFilesIn dir' (snd entry) []) ->
  visitEntry findTsFilesIn dir fileList entry =
  fileList ++ visitEntry findTsFilesIn dir [] entry.
Proof.
  intros IH. destruct entry as [file stat]. unfold visitEntry.
  cbn [fst snd] in *. destruct stat as [content | sub].
  - destruct (endsWith _ _); [reflexivity | rewrite app_nil_r; reflexivity].
  - destruct (_ && _); [apply IH | rewrite app_nil_r; reflexivity].
Qed.

Lemma findTsFilesIn_accumulates : forall st dir fileList,
  findTsFilesIn dir st fileList = fileList ++ findTsFilesIn dir st [].
Proof.
  induction st as [content | entries IH] using node_induction;
    intros dir fileList.
  - cbn [findTsFilesIn]. rewrite app_nil_r. reflexivity.
  - rewrite !findTsFilesIn_Dir.
    rewrite <- (app_nil_r fileList) at 1. generalize (@nil path) as found.
    induction IH as [|entry entries Hs _ IHe]; intros found; [reflexivity|].
    cbn [fold_left].
    rewrite (visitEntry_accumulates dir (fileList ++ found) entry Hs).
    rewrite (visitEntry_accumulates dir found entry Hs).
    rewrite <- app_assoc. apply IHe.
Qed.

Lemma fold_visit_accumulates dir entries fileList :
  fold_left (visitEntry findTsFilesIn dir) entries fileList =
  fileList ++ fold_left (visitEntry findTsFilesIn dir) entries [].
Proof. rewrite <- !findTsFilesIn_Dir. apply findTsFilesIn_accumulates. Qed.

(** What one entry contributes. *)
Lemma visitEntry_In dir entry p :
  (forall dir' q, In q (findTsFilesIn dir' (snd entry) []) <->
                  exists r, q = dir' ++ r /\ tsFileAt (snd entry) r) ->
  In p (visitEntry findTsFilesIn dir [] entry) <->
  exists q, p = dir ++ q /\ tsFileAt (Dir [entry]) q.
Proof.
  intros IH. destruct entry as [file stat]. unfold visitEntry. cbn [fst snd] in *.
  destruct stat as [content | sub].
  - destruct (endsWith file tsSuffix) eqn:E.
    + split.
      * intros [<- | []]. exists [file]. split; [reflexivity|].
        eapply ts_file; [left; reflexivity | exact E].
      * intros [q [-> H]]. inversion H as [? ? ? Hin He | ? ? ? ? Hin]; subst;
          destruct Hin as [[= <-] | []]; try discriminate. left; reflexivity.
    + split; [intros []|]. intros [q [-> H]].
      inversion H as [? ? ? Hin He | ? ? ? ? Hin]; subst;
        destruct Hin as [[= <-] | []]; congruence.
  - fold (walkedDir file). destruct (walkedDir file) eqn:E.
    + rewrite IH. split.
      * intros [r [-> H]]. exists (file :: r). rewrite <- app_assoc.
        split; [reflexivity|]. eapply ts_dir; [left; reflexivity | exact E | exact H].
      * intros [q [-> H]]. inversion H as [? ? ? Hin He | ? ? ? ? Hin Hw Hr]; subst;
          destruct Hin as [[= <-] | []]; try discriminate.
        subst. exists rest. rewrite <- app_assoc. split; [reflexivity | exact Hr].
    + split; [intros []|]. intros [q [-> H]].
      inversion H as [? ? ? Hin He | ? ? ? ? Hin Hw Hr]; subst;
        destruct Hin as [[= <-] | []]; congruence.
Qed.

Lemma tsFileAt_cons entry entries q :
  tsFileAt (Dir (entry :: entries)) q <->
  tsFileAt (Dir [entry]) q \/ tsFileAt (Dir entries) q.
Proof.
  split.
  - intros H. inversion H as [? ? ? Hin He | ? ? ? ? Hin Hw Hr]; subst;
      destruct Hin as [-> | Hin].
    + left. eapply ts_file; [left; reflexivity | exact He].
    + right. eapply ts_file; eassumption.
    + left. eapply ts_dir; [left; reflexivity | exact Hw | exact Hr].
    + right. eapply ts_dir; eassumption.
  - intros [H | H]; inversion H as [? ? ? Hin He | ? ? ? ? Hin Hw Hr]; subst.
    + destruct Hin as [-> | []]. eapply ts_file; [left; reflexivity | exact He].
    + destruct Hin as [-> | []].
      eapply ts_dir; [left; reflexivity | exact Hw | exact Hr].
    + eapply ts_file; [right; exact Hin | exact He].
    + eapply ts_dir; [right; exact Hin | exact Hw | exact Hr].
Qed.

(** The walk lists exactly the [.ts] files it can reach through directories
    other than [_generated] and [node_modules]. *)
Lemma findTsFilesIn_lists : forall st dir p,
  In p (findTsFilesIn dir st []) <->
  exists q, p = dir ++ q /\ tsFileAt st q.
Proof.
  induction st as [content | entries IH] using node_induction; intros dir p.
  - cbn [findTsFilesIn]. split; [intros [] | intros [q [_ H]]; inversion H].
  - rewrite findTsFilesIn_Dir.
    induction IH as [|entry entries Hs _ IHe].
    + cbn [fold_left]. split; [intros []|]. intros [q [_ H]].
      inversion H as [? ? ? Hin | ? ? ? ? Hin]; destruct Hin.
    + cbn [fold_left]. rewrite fold_visit_accumulates, in_app_iff, IHe.
      rewrite (visitEntry_In dir entry p Hs). split.
      * intros [[q [-> H]] | [q [-> H]]]; exists q;
          (split; [reflexivity|]); apply tsFileAt_cons; auto.
      * intros [q [-> H]]. apply tsFileAt_cons in H as [H | H];
          [left | right]; exists q; auto.
Qed.

(** ** Directory listings *)

Lemma lookup_In x entries st :
  lookup x entries = Some st -> In (x, st) entries.
Proof.
  induction entries as [|[y st'] entries IH]; cbn [lookup]; [discriminate|].
  destruct (text_eqb y x) eqn:E.
  - apply text_eqb_eq in E. subst y. intros [= ->]. left; reflexivity.
  - intros H. right. auto.
Qed.

Lemma existsb_names x l : existsb (text_eqb x) l = true <-> In x l.
Proof.
  rewrite existsb_exists. split.
  - intros [y [Hy E]]. apply text_eqb_eq in E. subst; exact Hy.
  - intros H. exists x. split; [exact H | apply text_eqb_refl].
Qed.

Lemma In_lookup x st entries :
  uniqueNames (map fst entries) = true ->
  In (x, st) entries -> lookup x entries = Some st.
Proof.
  induction entries as [|[y st'] entries IH]; cbn [map fst uniqueNames lookup];
    [intros _ []|].
  rewrite andb_true_iff, negb_true_iff. intros [Hy Hu] [[= -> ->] | Hin].
  - rewrite text_eqb_refl. reflexivity.
  - destruct (text_eqb y x) eqn:E; [|auto].
    apply text_eqb_eq in E. subst y. exfalso.
    apply not_true_iff_false in Hy. apply Hy, existsb_names.
    apply (in_map fst) in Hin. exact Hin.
Qed.

Lemma wellFormed_Dir entries :
  wellFormed (Dir entries) = true ->
  uniqueNames (map fst entries) = true /\
  forall x st, In (x, st) entries -> wellFormed st = true.
Proof.
  cbn [wellFormed]. rewrite andb_true_iff, forallb_forall.
  intros [Hu Hf]. split; [exact Hu|]. intros x st Hin. apply (Hf _ Hin).
Qed.

Lemma basename_cons x y rest : basename (x :: y :: rest) = basename (y :: rest).
Proof. reflexivity. Qed.

Lemma dirname_cons x y rest :
  dirname (x :: y :: rest) = x :: dirname (y :: rest).
Proof. reflexivity. Qed.

(** In a well-formed tree the files the walk should list are the regular
    files whose name ends in [.ts] and whose directories are all walked. *)
Lemma tsFileAt_readable : forall q st,
  wellFormed st = true -> tsFileAt st q ->
  (exists content, readFileSync q st = Some content) /\
  endsWith (basename q) tsSuffix = true /\
  forallb walkedDir (dirname q) = true.
Proof.
  induction q as [|x q IH]; intros st Hwf H; [inversion H|].
  inversion H as [entries file content Hin He | entries file sub rest Hin Hw Hr];
    subst; apply wellFormed_Dir in Hwf as [Hu Hsub].
  - cbn [readFileSync]. rewrite (In_lookup _ _ _ Hu Hin).
    split; [exists content; reflexivity|]. split; [exact He | reflexivity].
  - cbn [readFileSync]. rewrite (In_lookup _ _ _ Hu Hin).
    destruct (IH _ (Hsub _ _ Hin) Hr) as [Hread [He Hd]].
    destruct q as [|y q]; [inversion Hr|].
    rewrite basename_cons, dirname_cons. cbn [forallb]. rewrite Hw, Hd.
    auto.
Qed.

Lemma readable_tsFileAt : forall q st content,
  readFileSync q st = Some content ->
  endsWith (basename q) tsSuffix = true ->
  forallb walkedDir (dirname q) = true ->
  tsFileAt st q.
Proof.
  induction q as [|x q IH]; intros st content Hr He Hd.
  - destruct st; [|discriminate]. discriminate.
  - destruct st as [|entries]; [discriminate|]. cbn [readFileSync] in Hr.
    destruct (lookup x entries) as [sub|] eqn:El; [|discriminate].
    apply lookup_In in El. destruct q as [|y q].
    + destruct sub as [c|]; [|discriminate].
      eapply ts_file; [exact El | exact He].
    + rewrite basename_cons in He. rewrite dirname_cons in Hd.
      cbn [forallb] in Hd. apply andb_true_iff in Hd as [Hw Hd].
      destruct sub as [c | sub]; [discriminate|].
      eapply ts_dir; [exact El | exact Hw |]. eapply IH; eassumption.
Qed.

(** [findTsFiles] lists exactly the regular files below [convexDir] whose
    name ends in [.ts] and that lie in no directory called [_generated] or
    [node_modules]. *)
Theorem findTsFiles_exact (root : node) (files : list path) :
  wellFormed root = true ->
  findTsFiles root = Some files ->
  forall p,
    In p files <->
    (exists content, readFileSync p root = Some content) /\
    endsWith (basename p) tsSuffix = true /\
    forallb walkedDir (dirname p) = true.
Proof.
  intros Hwf Hf p. destruct root as [|entries]; [discriminate|].
  assert (E : files = findTsFilesIn [] (Dir entries) [])
    by (unfold findTsFiles in Hf; congruence).
  rewrite E, findTsFilesIn_lists. split.
  - intros [q [-> H]]. apply tsFileAt_readable; assumption.
  - intros [[content Hr] [He Hd]]. exists p. split; [reflexivity|].
    eapply readable_tsFileAt; eassumption.
Qed.

Lemma tsFileAt_head entries q :
  tsFileAt (Dir entries) q ->
  exists x r st, q = x :: r /\ In (x, st) entries.
Proof.
  intros H. inversion H as [? file content Hin | ? file sub rest Hin]; subst.
  - exists file, [], (File content). auto.
  - exists file, rest, (Dir sub). auto.
Qed.

Lemma visitEntry_head dir entry p :
  In p (visitEntry findTsFilesIn dir [] entry) ->
  exists r, p = dir ++ fst entry :: r.
Proof.
  intros H. apply visitEntry_In in H; [|intros; apply findTsFilesIn_lists].
  destruct H as [q [-> H]]. apply tsFileAt_head in H.
  destruct H as [x [r [st [-> [-> | []]]]]]. exists r. reflexivity.
Qed.

Lemma NoDup_append (A : Type) (l1 l2 : list A) :
  NoDup l1 -> NoDup l2 -> (forall x, In x l1 -> ~ In x l2) -> NoDup (l1 ++ l2).
Proof.
  intros H1 H2 Hd. induction H1 as [|x l1 Hx H1 IH]; [exact H2|].
  cbn [app]. constructor.
  - rewrite in_app_iff. intros [H | H]; [exact (Hx H)|].
    exact (Hd x (or_introl eq_refl) H).
  - apply IH. intros y Hy. apply Hd. right; exact Hy.
Qed.

(** In a well-formed tree no file is listed twice, so no file is processed
    twice. *)
Lemma findTsFilesIn_NoDup : forall st dir,
  wellFormed st = true -> NoDup (findTsFilesIn dir st []).
Proof.
  induction st as [content | entries IH] using node_induction; intros dir Hwf.
  - constructor.
  - rewrite findTsFilesIn_Dir. apply wellFormed_Dir in Hwf as [Hu Hsub].
    induction IH as [|[file stat] entries Hs _ IHe]; [constructor|].
    cbn [fold_left]. rewrite fold_visit_accumulates.
    cbn [map fst uniqueNames] in Hu.
    apply andb_true_iff in Hu as [Hfresh Hu]. apply negb_true_iff in Hfresh.
    apply NoDup_append.
    + unfold visitEntry. cbn [fst snd] in *. destruct stat as [content | sub].
      * destruct (endsWith _ _); repeat constructor. intros [].
      * destruct (_ && _); [|constructor]. apply Hs.
        apply (Hsub file). left; reflexivity.
    + apply IHe; [exact Hu|]. intros x st Hin. apply (Hsub x). right; exact Hin.
    + intros p Hp Hq. apply visitEntry_head in Hp as [r ->]. cbn [fst] in Hq.
      rewrite <- findTsFilesIn_Dir in Hq. apply findTsFilesIn_lists in Hq.
      destruct Hq as [q [E H]]. apply app_inv_head in E. subst q.
      apply tsFileAt_head in H. destruct H as [x [r' [st [[= <- _] Hin]]]].
      apply not_true_iff_false in Hfresh. apply Hfresh, existsb_names.
      apply (in_map fst) in Hin. exact Hin.
Qed.

(** ** Reading and writing *)

Lemma shape_Dir entries :
  shape (Dir entries) =
  Dir (map (fun entry => (fst entry, shape (snd entry))) entries).
Proof. reflexivity. Qed.

(** The walk and the well-formedness only depend on the shape. *)
Lemma findTsFilesIn_shape : forall st dir fileList,
  findTsFilesIn dir (shape st) fileList = findTsFilesIn dir st fileList.
Proof.
  induction st as [content | entries IH] using node_induction;
    intros dir fileList; [reflexivity|].
  rewrite shape_Dir, !findTsFilesIn_Dir. revert fileList.
  induction IH as [|[file stat] entries Hs _ IHe]; intros fileList;
    [reflexivity|].
  cbn [map fold_left fst snd]. rewrite IHe. f_equal.
  unfold visitEntry. cbn [fst snd]. destruct stat as [content | sub].
  - reflexivity.
  - rewrite shape_Dir. rewrite <- shape_Dir.
    destruct (_ && _); [apply Hs | reflexivity].
Qed.

Lemma wellFormed_shape : forall st, wellFormed (shape st) = wellFormed st.
Proof.
  induction st as [content | entries IH] using node_induction; [reflexivity|].
  rewrite shape_Dir. cbn [wellFormed]. rewrite map_map. cbn [fst]. f_equal.
  induction IH as [|[file stat] entries Hs _ IHe]; [reflexivity|].
  cbn [map forallb fst snd] in *. rewrite Hs, IHe. reflexivity.
Qed.

Lemma lookup_setEntry x st' entries y :
  lookup y (setEntry x st' entries) =
  if text_eqb x y
  then match lookup x entries with Some _ => Some st' | None => None end
  else lookup y entries.
Proof.
  induction entries as [|[z st] entries IH]; cbn [setEntry lookup].
  - destruct (text_eqb x y); reflexivity.
  - destruct (text_eqb z x) eqn:Ezx.
    + apply text_eqb_eq in Ezx. subst z. cbn [lookup].
      destruct (text_eqb x y); reflexivity.
    + cbn [lookup]. destruct (text_eqb z y) eqn:Ezy.
      * apply text_eqb_eq in Ezy. subst z. destruct (text_eqb x y) eqn:Exy;
          [|reflexivity].
        apply text_eqb_eq in Exy. subst y. rewrite text_eqb_refl in Ezx.
        discriminate.
      * exact IH.
Qed.

Lemma shape_setEntry x st st' entries :
  lookup x entries = Some st -> shape st' = shape st ->
  shape (Dir (setEntry x st' entries)) = shape (Dir entries).
Proof.
  intros Hl Hs. rewrite !shape_Dir. f_equal.
  induction entries as [|[y sty] entries IH]; [discriminate|].
  cbn [lookup setEntry] in *. destruct (text_eqb y x).
  - injection Hl as ->. cbn [map fst snd]. rewrite Hs. reflexivity.
  - cbn [map fst snd]. rewrite (IH Hl). reflexivity.
Qed.

(** Writing over a file that can be read succeeds, keeps the shape of the
    tree, is read back, and leaves every other path as it was. *)
Lemma write_over : forall p st old content,
  readFileSync p st = Some old ->
  exists st',
    writeFileSync p content st = Some st' /\
    shape st' = shape st /\
    readFileSync p st' = Some content /\
    forall q, q <> p -> readFileSync q st' = readFileSync q st.
Proof.
  induction p as [|x p IH]; intros st old content Hr.
  - destruct st as [c|]; [|discriminate]. exists (File content).
    repeat split. intros [|y q] Hq; [contradiction | reflexivity].
  - destruct st as [|entries]; [discriminate|]. cbn [readFileSync] in Hr.
    destruct (lookup x entries) as [sub|] eqn:El; [|discriminate].
    destruct (IH sub old content Hr) as [sub' [Hw [Hs [Hb Ho]]]].
    exists (Dir (setEntry x sub' entries)). cbn [writeFileSync].
    rewrite El, Hw. split; [reflexivity|].
    split; [apply (shape_setEntry _ _ _ _ El Hs)|]. split.
    + cbn [readFileSync]. rewrite lookup_setEntry, text_eqb_refl, El. exact Hb.
    + intros [|y q] Hq; [reflexivity|]. cbn [readFileSync].
      rewrite lookup_setEntry. destruct (text_eqb x y) eqn:E; [|reflexivity].
      apply text_eqb_eq in E. subst y. rewrite El. apply Ho. congruence.
Qed.

(** ** The loop over the files *)

(** The loop over a list of distinct readable files: it does not throw, it
    keeps the shape of the tree, every listed file ends as the loop body
    leaves it, every other path keeps its content, and the counters and the
    log grow by the files that were modified. *)
Lemma forFiles_run processFile files : forall st0,
  NoDup files ->
  (forall p, In p files -> exists c, readFileSync p (fs st0) = Some c) ->
  exists s,
    forFiles processFile files st0 = Some s /\
    shape (fs s) = shape (fs st0) /\
    (forall p c, In p files -> readFileSync p (fs st0) = Some c ->
       readFileSync p (fs s) =
       Some (written c (processFile (length (dirname p)) c))) /\
    (forall p, ~ In p files -> readFileSync p (fs s) = readFileSync p (fs st0)) /\
    fixedLog s = fixedLog st0 ++ filter (fixedAt processFile (fs st0)) files /\
    fixedCount s =
      fixedCount st0 + length (filter (fixedAt processFile (fs st0)) files) /\
    fixedCount s + skippedCount s =
      fixedCount st0 + skippedCount st0 + length files.
Proof.
  induction files as [|p files IH]; intros st0 Hnd Hread.
  - exists st0. cbn [forFiles filter length]. rewrite app_nil_r.
    repeat split; auto; try lia. intros p c [].
  - apply NoDup_cons_iff in Hnd as [Hp Hnd].
    destruct (Hread p (or_introl eq_refl)) as [c Hc].
    cbn [forFiles]. unfold loopBody. rewrite Hc. cbv zeta.
    assert (Hfix : fixedAt processFile (fs st0) p =
                   modified (processFile (length (dirname p)) c))
      by (unfold fixedAt; rewrite Hc; reflexivity).
    cbn [filter]. rewrite Hfix.
    destruct (modified (processFile (length (dirname p)) c)) eqn:Hm.
    + destruct (write_over p (fs st0) c
                  (newContent (processFile (length (dirname p)) c)) Hc)
        as [fs1 [Hw [Hs [Hb Ho]]]].
      rewrite Hw.
      assert (Hsame : forall q, In q files ->
                readFileSync q fs1 = readFileSync q (fs st0)).
      { intros q Hq. apply Ho. intros ->. exact (Hp Hq). }
      destruct (IH (mkRun fs1 (S (fixedCount st0)) (skippedCount st0)
                      (fixedLog st0 ++ [p])) Hnd) as [s [Hrun [Hs' [Hin [Hout [Hlog [Hfc Hsum]]]]]]].
      { cbn [fs]. intros q Hq. rewrite (Hsame q Hq). apply Hread. right; exact Hq. }
      cbn [fs fixedCount skippedCount fixedLog] in *.
      assert (Hfilter : filter (fixedAt processFile fs1) files =
                        filter (fixedAt processFile (fs st0)) files).
      { apply filter_ext_in. intros q Hq. unfold fixedAt.
        rewrite (Hsame q Hq). reflexivity. }
      rewrite Hfilter in Hlog, Hfc.
      exists s. split; [exact Hrun|]. split; [congruence|]. split; [|split].
      * intros q c' [<- | Hq] Hc'.
        -- rewrite (Hout p Hp), Hb. rewrite Hc in Hc'. injection Hc' as <-.
           unfold written. rewrite Hm. reflexivity.
        -- apply Hin; [exact Hq|]. rewrite (Hsame q Hq). exact Hc'.
      * intros q Hq. rewrite Hout by (intros H; apply Hq; right; exact H).
        apply Ho. intros ->. apply Hq. left; reflexivity.
      * rewrite Hlog, <- app_assoc. cbn [app length].
        split; [reflexivity|]. split; lia.
    + destruct (IH (mkRun (fs st0) (fixedCount st0) (S (skippedCount st0))
                      (fixedLog st0)) Hnd) as [s [Hrun [Hs' [Hin [Hout [Hlog [Hfc Hsum]]]]]]].
      { cbn [fs]. intros q Hq. apply Hread. right; exact Hq. }
      cbn [fs fixedCount skippedCount fixedLog] in *.
      exists s. split; [exact Hrun|]. split; [exact Hs'|]. split; [|split].
      * intros q c' [<- | Hq] Hc'.
        -- rewrite (Hout p Hp), Hc. rewrite Hc in Hc'. injection Hc' as <-.
           unfold written. rewrite Hm. reflexivity.
        -- apply Hin; assumption.
      * intros q Hq. apply Hout. intros H. apply Hq. right; exact H.
      * split; [exact Hlog|]. cbn [length]. split; lia.
Qed.

(** A loop in which no file is modified only counts. *)
Lemma forFiles_all_skipped processFile files : forall st0,
  (forall p, In p files ->
     exists c, readFileSync p (fs st0) = Some c /\
               modified (processFile (length (dirname p)) c) = false) ->
  forFiles processFile files st0 =
  Some (mkRun (fs st0) (fixedCount st0) (skippedCount st0 + length files)
          (fixedLog st0)).
Proof.
  induction files as [|p files IH]; intros st0 H.
  - cbn [forFiles length]. rewrite Nat.add_0_r. destruct st0; reflexivity.
  - destruct (H p (or_introl eq_refl)) as [c [Hc Hm]].
    cbn [forFiles]. unfold loopBody. rewrite Hc. cbv zeta. rewrite Hm.
    rewrite IH; cbn [fs fixedCount skippedCount fixedLog length].
    + do 2 f_equal. lia.
    + intros q Hq. apply H. right; exact Hq.
Qed.

(** ** The loop body of version one *)

Lemma V1_marker_guard depth content :
  includes content marker = true ->
  V1.processFile depth content = mkResult content false SkippedAlreadyPatched.
Proof. intros H. unfold V1.processFile. rewrite H. reflexivity. Qed.

(** Version one only sets the flag after its pattern was found, so a set
    flag means a template, hence the marker, was inserted; a clear flag
    means the text was left as it was. *)
Lemma V1_flag_sound depth content :
  (modified (V1.processFile depth content) = true ->
   includes (newContent (V1.processFile depth content)) marker = true) /\
  (modified (V1.processFile depth content) = false ->
   newContent (V1.processFile depth content) = content).
Proof.
  unfold V1.processFile. destruct (includes content marker);
    [split; [discriminate | reflexivity]|].
  destruct (hasInternalImport content), (hasApiImport content);
    cbv zeta; cbn [negb andb]; try (split; [discriminate | reflexivity]).
  - destruct (test V1.combinedImportRegex content) eqn:T;
      [|split; [discriminate | reflexivity]].
    split; [intros _ | discriminate]. cbn [finish newContent].
    destruct (test_replace_inserts _ (combinedBlock (importPath depth)) _ T)
      as [a [b ->]]. apply includes_within, combinedBlock_marker.
  - destruct (test V1.internalImportRegex content) eqn:T;
      [|split; [discriminate | reflexivity]].
    split; [intros _ | discriminate]. cbn [finish newContent].
    destruct (test_replace_inserts _ (singleBlock internal (importPath depth)) _ T)
      as [a [b ->]]. apply includes_within, singleBlock_marker.
  - destruct (test V1.apiImportRegex content) eqn:T;
      [|split; [discriminate | reflexivity]].
    split; [intros _ | discriminate]. cbn [finish newContent].
    destruct (test_replace_inserts _ (singleBlock api (importPath depth)) _ T)
      as [a [b ->]]. apply includes_within, singleBlock_marker.
Qed.

(** ** A file once processed is settled *)

Lemma V2_settles depth content :
  modified (V2.processFile depth
              (written content (V2.processFile depth content))) = false.
Proof.
  unfold written. destruct (modified (V2.processFile depth content)) eqn:E;
    [|exact E].
  rewrite (V2_marker_guard depth _ (V2_modified_has_marker _ _ E)). reflexivity.
Qed.

Lemma V1_settles depth content :
  modified (V1.processFile depth
              (written content (V1.processFile depth content))) = false.
Proof.
  unfold written. destruct (modified (V1.processFile depth content)) eqn:E;
    [|exact E].
  rewrite (V1_marker_guard depth _ (proj1 (V1_flag_sound depth content) E)).
  reflexivity.
Qed.

(** ** The whole script *)

Lemma shape_is_Dir st entries :
  shape st = shape (Dir entries) -> exists entries', st = Dir entries'.
Proof. destruct st as [c | entries']; [discriminate | eauto]. Qed.

Lemma findTsFilesIn_same_shape st st' dir :
  shape st = shape st' ->
  findTsFilesIn dir st [] = findTsFilesIn dir st' [].
Proof.
  intros H. rewrite <- (findTsFilesIn_shape st), <- (findTsFilesIn_shape st'), H.
  reflexivity.
Qed.

Lemma found_readable root p :
  wellFormed root = true -> In p (findTsFilesIn [] root []) ->
  exists c, readFileSync p root = Some c.
Proof.
  intros Hwf H. apply findTsFilesIn_lists in H. destruct H as [q [-> H]].
  apply (tsFileAt_readable _ _ Hwf H).
Qed.

(** The run of either script on a well-formed tree. *)
Lemma main_run processFile entries :
  wellFormed (Dir entries) = true ->
  exists s,
    main processFile (Dir entries) = Some s /\
    shape (fs s) = shape (Dir entries) /\
    (forall p c, In p (findTsFilesIn [] (Dir entries) []) ->
       readFileSync p (Dir entries) = Some c ->
       readFileSync p (fs s) =
       Some (written c (processFile (length (dirname p)) c))) /\
    (forall p, ~ In p (findTsFilesIn [] (Dir entries) []) ->
       readFileSync p (fs s) = readFileSync p (Dir entries)) /\
    fixedLog s =
      filter (fixedAt processFile (Dir entries))
        (findTsFilesIn [] (Dir entries) []) /\
    fixedCount s = length (fixedLog s) /\
    fixedCount s + skippedCount s =
      length (findTsFilesIn [] (Dir entries) []).
Proof.
  intros Hwf. unfold main, findTsFiles.
  destruct (forFiles_run processFile (findTsFilesIn [] (Dir entries) [])
              (mkRun (Dir entries) 0 0 []))
    as [s [Hrun [Hs [Hin [Hout [Hlog [Hfc Hsum]]]]]]].
  - apply findTsFilesIn_NoDup; exact Hwf.
  - intros p Hp. apply found_readable; assumption.
  - cbn [fs fixedCount skippedCount fixedLog app] in *.
    exists s. repeat split; auto. rewrite Hlog. exact Hfc.
Qed.

(** A second run of either script finds the same files and fixes none. *)
Lemma main_twice processFile entries s :
  (forall depth content,
     modified (processFile depth
                 (written content (processFile depth content))) = false) ->
  wellFormed (Dir entries) = true ->
  main processFile (Dir entries) = Some s ->
  main processFile (fs s) =
  Some (mkRun (fs s) 0 (fixedCount s + skippedCount s) []).
Proof.
  intros Hset Hwf Hmain.
  destruct (main_run processFile entries Hwf)
    as [s' [Hrun [Hs [Hin [Hout [Hlog [Hfc Hsum]]]]]]].
  rewrite Hmain in Hrun. injection Hrun as <-.
  destruct (shape_is_Dir _ _ Hs) as [entries' E].
  unfold main, findTsFiles. rewrite E.
  rewrite (findTsFilesIn_same_shape (Dir entries') (Dir entries) [])
    by (rewrite <- E; exact Hs).
  rewrite forFiles_all_skipped; cbn [fs fixedCount skippedCount fixedLog].
  - rewrite <- E, Hsum. reflexivity.
  - intros p Hp. destruct (found_readable _ _ Hwf Hp) as [c Hc].
    exists (written c (processFile (length (dirname p)) c)).
    split; [rewrite <- E; apply Hin; assumption | apply Hset].
Qed.

(** * The script as a whole *)

(** ** The listing *)

Lemma found_iff_listed entries p :
  wellFormed (Dir entries) = true ->
  In p (findTsFilesIn [] (Dir entries) []) <->
  (exists content, readFileSync p (Dir entries) = Some content) /\
  listed p = true.
Proof.
  intros Hwf. rewrite findTsFilesIn_lists. unfold listed.
  rewrite andb_true_iff. split.
  - intros [q [-> H]]. cbn [app]. apply tsFileAt_readable; assumption.
  - intros [[content Hr] [He Hd]]. exists p. split; [reflexivity|].
    eapply readable_tsFileAt; eassumption.
Qed.

Lemma findTsFiles_exact_witness :
  findTsFiles sampleTree =
    Some [ [str "tasks.ts"]; [str "lib"; str "jobs.ts"]; [str "plain.ts"] ] /\
  forall p,
    In p [ [str "tasks.ts"]; [str "lib"; str "jobs.ts"]; [str "plain.ts"] ] <->
    (exists content, readFileSync p sampleTree = Some content) /\
    endsWith (basename p) tsSuffix = true /\
    forallb walkedDir (dirname p) = true.
Proof.
  split; [vm_compute; reflexivity|].
  apply (findTsFiles_exact sampleTree); vm_compute; reflexivity.
Defined.

(** No file is listed twice, so no file is read, rewritten or counted
    twice. *)
Theorem findTsFiles_no_duplicates (root : node) (files : list path) :
  wellFormed root = true -> findTsFiles root = Some files -> NoDup files.
Proof.
  intros Hwf Hf. destruct root as [|entries]; [discriminate|].
  assert (E : files = findTsFilesIn [] (Dir entries) [])
    by (unfold findTsFiles in Hf; congruence).
  rewrite E. apply findTsFilesIn_NoDup; exact Hwf.
Qed.

Lemma findTsFiles_no_duplicates_witness :
  NoDup [ [str "tasks.ts"]; [str "lib"; str "jobs.ts"]; [str "plain.ts"] ].
Proof.
  apply (findTsFiles_no_duplicates sampleTree); vm_compute; reflexivity.
Defined.

(** The walk is depth first and in the order of the listings: the result
    is the list passed in, followed by what each entry of the directory
    contributes, entry after entry; a file whose name ends in [.ts]
    contributes its path, a directory that is walked contributes its own
    walk, and every other entry contributes nothing. *)
Theorem findTsFilesIn_depth_first (dir : path) (entries : list (text * node))
        (fileList : list path) :
  findTsFilesIn dir (Dir entries) fileList =
  fileList ++
  flat_map (fun entry =>
              match snd entry with
              | File _ =>
                  if endsWith (fst entry) tsSuffix
                  then [dir ++ [fst entry]] else []
              | Dir _ =>
                  if walkedDir (fst entry)
                  then findTsFilesIn (dir ++ [fst entry]) (snd entry) []
                  else []
              end) entries.
Proof.
  rewrite findTsFilesIn_Dir, fold_visit_accumulates. f_equal.
  induction entries as [|[file stat] entries IH]; [reflexivity|].
  cbn [fold_left flat_map]. rewrite fold_visit_accumulates, IH. f_equal.
Qed.

(** The listing depends on the names and on which entries are directories,
    not on what the files hold: rewriting files does not change what a
    later walk finds. *)
Theorem findTsFiles_ignores_contents (root root' : node) :
  shape root = shape root' -> findTsFiles root = findTsFiles root'.
Proof.
  intros H. destruct root as [c | entries], root' as [c' | entries'];
    try discriminate; [reflexivity|].
  unfold findTsFiles. f_equal. apply findTsFilesIn_same_shape. exact H.
Qed.

Lemma findTsFiles_ignores_contents_witness :
  findTsFiles sampleTree = findTsFiles (shape sampleTree).
Proof.
  apply (findTsFiles_ignores_contents sampleTree (shape sampleTree)).
  vm_compute. reflexivity.
Defined.

(** ** The run *)

(** On a well-formed tree the script does not throw; it creates, removes
    and renames nothing; and the file at a path holds afterwards what the
    loop body leaves of it if the path is listed (the name ends in [.ts]
    and no directory on the way is [_generated] or [node_modules]), and
    what it held before otherwise. *)
Theorem main_final_tree (processFile : nat -> text -> result)
        (root : node) (files : list path) :
  wellFormed root = true ->
  findTsFiles root = Some files ->
  exists s,
    main processFile root = Some s /\
    shape (fs s) = shape root /\
    forall p,
      readFileSync p (fs s) =
      option_map
        (fun content =>
           if listed p
           then written content (processFile (length (dirname p)) content)
           else content)
        (readFileSync p root).
Proof.
  intros Hwf Hf. destruct root as [|entries]; [discriminate|].
  destruct (main_run processFile entries Hwf)
    as [s [Hrun [Hs [Hin [Hout _]]]]].
  exists s. split; [exact Hrun|]. split; [exact Hs|]. intros p.
  pose proof (found_iff_listed entries p Hwf) as Hl.
  destruct (readFileSync p (Dir entries)) as [c|] eqn:Hr; cbn [option_map].
  - destruct (listed p) eqn:El.
    + apply Hin; [|exact Hr]. apply Hl. split; [exists c|]; reflexivity.
    + rewrite Hout; [exact Hr|]. intros H. apply Hl in H as [_ H].
      discriminate.
  - rewrite Hout; [exact Hr|]. intros H. apply Hl in H as [[c H] _].
    discriminate.
Qed.

Lemma main_final_tree_witness :
  exists s,
    main V2.processFile sampleTree = Some s /\
    shape (fs s) = shape sampleTree /\
    forall p,
      readFileSync p (fs s) =
      option_map
        (fun content =>
           if listed p
           then written content (V2.processFile (length (dirname p)) content)
           else content)
        (readFileSync p sampleTree).
Proof.
  apply (main_final_tree V2.processFile sampleTree
           [ [str "tasks.ts"]; [str "lib"; str "jobs.ts"]; [str "plain.ts"] ]);
    vm_compute; reflexivity.
Defined.

(** Every listed file is counted once, as fixed or as skipped; the log
    holds one line for each fixed file; and the files logged are the
    listed files whose loop body sets [modified], in the order of the
    walk. *)
Theorem main_counters (processFile : nat -> text -> result)
        (root : node) (files : list path) (s : runState) :
  wellFormed root = true ->
  findTsFiles root = Some files ->
  main processFile root = Some s ->
  fixedCount s + skippedCount s = length files /\
  fixedCount s = length (fixedLog s) /\
  fixedLog s = filter (fixedAt processFile root) files.
Proof.
  intros Hwf Hf Hmain. destruct root as [|entries]; [discriminate|].
  destruct (main_run processFile entries Hwf)
    as [s' [Hrun [_ [_ [_ [Hlog [Hfc Hsum]]]]]]].
  rewrite Hmain in Hrun. injection Hrun as <-.
  assert (E : files = findTsFilesIn [] (Dir entries) [])
    by (unfold findTsFiles in Hf; congruence).
  rewrite E. auto.
Qed.

Lemma main_counters_witness :
  exists s,
    main V2.processFile sampleTree = Some s /\
    fixedCount s = 2 /\ skippedCount s = 1 /\
    fixedLog s = [ [str "tasks.ts"]; [str "lib"; str "jobs.ts"] ] /\
    fixedCount s + skippedCount s = 3.
Proof.
  destruct (main V2.processFile sampleTree) as [s|] eqn:E;
    [|vm_compute in E; discriminate].
  exists s. split; [reflexivity|].
  destruct (main_counters V2.processFile sampleTree
              [ [str "tasks.ts"]; [str "lib"; str "jobs.ts"]; [str "plain.ts"] ]
              s) as [Hsum _]; [vm_compute; reflexivity ..| exact E |].
  vm_compute in E. injection E as <-.
  split; [reflexivity|]. split; [reflexivity|]. split; [reflexivity|].
  exact Hsum.
Defined.

(** ** The flag is exact *)

Lemma V2_flag_exact depth content :
  modified (V2.processFile depth content) = true <->
  newContent (V2.processFile depth content) <> content.
Proof.
  split.
  - intros H E. pose proof (V2_modified_has_marker _ _ H) as Hm.
    rewrite E in Hm. rewrite (V2_marker_guard depth _ Hm) in H. discriminate.
  - intros H. destruct (modified (V2.processFile depth content)) eqn:E;
      [reflexivity|]. destruct (H (V2_unmodified_same _ _ E)).
Qed.

Lemma V1_flag_exact depth content :
  modified (V1.processFile depth content) = true <->
  newContent (V1.processFile depth content) <> content.
Proof.
  destruct (V1_flag_sound depth content) as [Hs Hu]. split.
  - intros H E. pose proof (Hs H) as Hm.
    rewrite E in Hm. rewrite (V1_marker_guard depth _ Hm) in H. discriminate.
  - intros H. destruct (modified (V1.processFile depth content)) eqn:E;
      [reflexivity|]. destruct (H (Hu eq_refl)).
Qed.

(** With a loop body whose flag is exact, the files logged are the paths
    whose content the run changed. *)
Lemma log_lists_changed processFile entries s :
  (forall depth content,
     modified (processFile depth content) = true <->
     newContent (processFile depth content) <> content) ->
  wellFormed (Dir entries) = true ->
  main processFile (Dir entries) = Some s ->
  forall p,
    In p (fixedLog s) <->
    readFileSync p (fs s) <> readFileSync p (Dir entries).
Proof.
  intros Hexact Hwf Hmain p.
  destruct (main_run processFile entries Hwf)
    as [s' [Hrun [_ [Hin [Hout [Hlog _]]]]]].
  rewrite Hmain in Hrun. injection Hrun as <-.
  rewrite Hlog, filter_In. unfold fixedAt. split.
  - intros [Hp Hfix]. destruct (found_readable _ _ Hwf Hp) as [c Hc].
    rewrite Hc in Hfix. rewrite Hc, (Hin p c Hp Hc). unfold written.
    rewrite Hfix. intros [= E]. apply Hexact in Hfix. exact (Hfix E).
  - intros Hne. pose proof (found_iff_listed entries p Hwf) as Hl.
    destruct (readFileSync p (Dir entries)) as [c|] eqn:Hc.
    + destruct (listed p) eqn:El.
      * assert (Hp : In p (findTsFilesIn [] (Dir entries) []))
          by (apply Hl; split; [exists c|]; reflexivity).
        split; [exact Hp|].
        destruct (modified (processFile (length (dirname p)) c)) eqn:Em;
          [reflexivity|].
        destruct Hne. rewrite (Hin p c Hp Hc). unfold written.
        rewrite Em. reflexivity.
      * destruct Hne. rewrite Hout; [exact Hc|].
        intros H. apply Hl in H as [_ H]. discriminate.
    + destruct Hne. rewrite Hout; [exact Hc|].
      intros H. apply Hl in H as [[c H] _]. discriminate.
Qed.

(** The log of version two is truthful: the paths it reports as fixed are
    the paths whose content differs after the run.  No file is written
    back with the text it had, and no change goes unreported. *)
Theorem V2_log_lists_changed_files (root : node) (s : runState) :
  wellFormed root = true ->
  main V2.processFile root = Some s ->
  forall p,
    In p (fixedLog s) <-> readFileSync p (fs s) <> readFileSync p root.
Proof.
  intros Hwf Hmain. destruct root as [|entries]; [discriminate|].
  apply (log_lists_changed V2.processFile entries s V2_flag_exact Hwf Hmain).
Qed.

Lemma V2_log_lists_changed_files_witness :
  exists s,
    main V2.processFile sampleTree = Some s /\
    forall p,
      In p (fixedLog s) <->
      readFileSync p (fs s) <> readFileSync p sampleTree.
Proof.
  destruct (main V2.processFile sampleTree) as [s|] eqn:E;
    [|vm_compute in E; discriminate].
  exists s. split; [reflexivity|].
  apply (V2_log_lists_changed_files sampleTree s);
    [vm_compute; reflexivity | exact E].
Defined.

(** The same for version one. *)
Theorem V1_log_lists_changed_files (root : node) (s : runState) :
  wellFormed root = true ->
  main V1.processFile root = Some s ->
  forall p,
    In p (fixedLog s) <-> readFileSync p (fs s) <> readFileSync p root.
Proof.
  intros Hwf Hmain. destruct root as [|entries]; [discriminate|].
  apply (log_lists_changed V1.processFile entries s V1_flag_exact Hwf Hmain).
Qed.

Lemma V1_log_lists_changed_files_witness :
  exists s,
    main V1.processFile sampleTree = Some s /\
    forall p,
      In p (fixedLog s) <->
      readFileSync p (fs s) <> readFileSync p sampleTree.
Proof.
  destruct (main V1.processFile sampleTree) as [s|] eqn:E;
    [|vm_compute in E; discriminate].
  exists s. split; [reflexivity|].
  apply (V1_log_lists_changed_files sampleTree s);
    [vm_compute; reflexivity | exact E].
Defined.

(** ** Running the script again *)

(** A second run of version two over the tree the first run left finds the
    same files, writes nothing, logs nothing, and counts every file as
    skipped. *)
Theorem V2_second_run_fixes_nothing (root : node) (s : runState) :
  wellFormed root = true ->
  main V2.processFile root = Some s ->
  main V2.processFile (fs s) =
  Some (mkRun (fs s) 0 (fixedCount s + skippedCount s) []).
Proof.
  intros Hwf Hmain. destruct root as [|entries]; [discriminate|].
  apply (main_twice V2.processFile entries s V2_settles Hwf Hmain).
Qed.

Lemma V2_second_run_fixes_nothing_witness :
  exists s,
    main V2.processFile sampleTree = Some s /\
    fixedCount s = 2 /\
    main V2.processFile (fs s) = Some (mkRun (fs s) 0 3 []).
Proof.
  destruct (main V2.processFile sampleTree) as [s|] eqn:E;
    [|vm_compute in E; discriminate].
  exists s. split; [reflexivity|].
  pose proof (V2_second_run_fixes_nothing sampleTree s) as H.
  assert (Hwf : wellFormed sampleTree = true) by (vm_compute; reflexivity).
  specialize (H Hwf E).
  vm_compute in E. injection E as <-.
  split; [reflexivity | exact H].
Defined.

(** The same for version one. *)
Theorem V1_second_run_fixes_nothing (root : node) (s : runState) :
  wellFormed root = true ->
  main V1.processFile root = Some s ->
  main V1.processFile (fs s) =
  Some (mkRun (fs s) 0 (fixedCount s + skippedCount s) []).
Proof.
  intros Hwf Hmain. destruct root as [|entries]; [discriminate|].
  apply (main_twice V1.processFile entries s V1_settles Hwf Hmain).
Qed.

Lemma V1_second_run_fixes_nothing_witness :
  exists s,
    main V1.processFile sampleTree = Some s /\
    fixedCount s = 2 /\
    main V1.processFile (fs s) = Some (mkRun (fs s) 0 3 []).
Proof.
  destruct (main V1.processFile sampleTree) as [s|] eqn:E;
    [|vm_compute in E; discriminate].
  exists s. split; [reflexivity|].
  pose proof (V1_second_run_fixes_nothing sampleTree s) as H.
  assert (Hwf : wellFormed sampleTree = true) by (vm_compute; reflexivity).
  specialize (H Hwf E).
  vm_compute in E. injection E as <-.
  split; [reflexivity | exact H].
Defined.

(** * More on the rewrite rules *)

(** ** What a rewritten file holds *)

Lemma singleBlock_requireLine name p :
  includes (singleBlock name p) (requireLine name p) = true.
Proof.
  apply includes_infix. unfold singleBlock.
  exists (bypassLine ++ [LF] ++ eslintLine ++ [LF]), [].
  rewrite <- !app_assoc, app_nil_r. reflexivity.
Qed.

Lemma combinedBlock_requireLine p :
  includes (combinedBlock p) (requireLine internal p) = true.
Proof.
  apply includes_infix. unfold combinedBlock.
  exists (bypassLine ++ [LF] ++ eslintLine ++ [LF]).
  exists ([LF] ++ eslintLine ++ [LF] ++ requireLine api p).
  rewrite <- !app_assoc. reflexivity.
Qed.

Lemma replace_includes r rep s w :
  includes rep w = true -> test r s = true ->
  includes (replace r rep s) w = true.
Proof.
  intros Hw Ht. destruct (test_replace_inserts r rep s Ht) as [a [b ->]].
  apply includes_within; exact Hw.
Qed.

Lemma requireLine_path name p :
  includes (requireLine name p) (str "= require('" ++ p ++ str "').") = true.
Proof.
  apply includes_infix. unfold requireLine.
  exists (str "const " ++ name ++ str " "), (name ++ str " as any;").
  rewrite <- !app_assoc. reflexivity.
Qed.

Lemma includes_trans s t w :
  includes s t = true -> includes t w = true -> includes s w = true.
Proof.
  rewrite !includes_infix. intros [a [b ->]] [u [v ->]].
  exists (a ++ u), (v ++ b). rewrite <- !app_assoc. reflexivity.
Qed.

Lemma importPath_cases depth :
  importPath depth =
  (if Nat.eqb depth 0 then str "./" else concat (repeat (str "../") depth))
  ++ str "_generated/api.js".
Proof. destruct depth as [|depth]; reflexivity. Qed.

(** A file version two reports as modified holds a declaration of
    [internal] or of [api] that requires the generated module by the
    computed path. *)
Lemma V2_modified_inserts depth content :
  modified (V2.processFile depth content) = true ->
  exists name,
    (name = internal \/ name = api) /\
    includes (newContent (V2.processFile depth content))
      (requireLine name (importPath depth)) = true.
Proof.
  unfold V2.processFile.
  destruct (includes content marker); [discriminate|].
  destruct (hasInternalImport content), (hasApiImport content);
    cbv zeta; cbn [negb andb]; try discriminate.
  all: destruct (test V2.sameLineCombinedRegex content) eqn:Tc;
    [ intros _; rewrite finish_newContent; exists internal;
      split; [left; reflexivity|];
      apply replace_includes; [apply combinedBlock_requireLine | exact Tc] | ].
  - rewrite finish_modified, finish_newContent. intros H.
    destruct (test V2.apiImportRegex
                (replace V2.internalImportRegex
                   (singleBlock internal (importPath depth)) content)) eqn:Ta.
    + exists api. split; [right; reflexivity|].
      apply replace_includes; [apply singleBlock_requireLine | exact Ta].
    + rewrite (test_false_replace _ _ _ Ta) in *.
      rewrite text_eqb_refl, orb_false_r in H.
      destruct (test V2.internalImportRegex content) eqn:Ti.
      * exists internal. split; [left; reflexivity|].
        apply replace_includes; [apply singleBlock_requireLine | exact Ti].
      * rewrite (test_false_replace _ _ _ Ti), text_eqb_refl in H.
        discriminate.
  - destruct (test V2.internalImportRegex content) eqn:Ti;
      [|rewrite finish_modified; discriminate].
    rewrite finish_newContent. intros _. exists internal.
    split; [left; reflexivity|].
    apply replace_includes; [apply singleBlock_requireLine | exact Ti].
  - destruct (test V2.apiImportRegex content) eqn:Ta;
      [|rewrite finish_modified; discriminate].
    rewrite finish_newContent. intros _. exists api.
    split; [right; reflexivity|].
    apply replace_includes; [apply singleBlock_requireLine | exact Ta].
Qed.

(** Every file version two fixes requires the generated module by a path
    relative to the directory of the file: [./_generated/api.js] for a
    file directly in the convex directory, and one [../] for each
    directory in between otherwise; the path always carries the [.js]
    extension, whatever specifier the import had. *)
Theorem V2_fixed_file_requires_relative_api (depth : nat) (content : text) :
  modified (V2.processFile depth content) = true ->
  includes (newContent (V2.processFile depth content))
    (str "= require('" ++
     (if Nat.eqb depth 0 then str "./" else concat (repeat (str "../") depth))
     ++ str "_generated/api.js" ++ str "').") = true.
Proof.
  intros H. destruct (V2_modified_inserts depth content H) as [name [_ Hn]].
  eapply includes_trans; [exact Hn|].
  pose proof (requireLine_path name (importPath depth)) as R.
  rewrite (importPath_cases depth) in R at 2.
  rewrite <- app_assoc in R. exact R.
Qed.

Lemma V2_fixed_file_requires_relative_api_witness :
  includes (newContent (V2.processFile 2 separateFixture))
    (str "= require('../../_generated/api.js').") = true.
Proof.
  apply (V2_fixed_file_requires_relative_api 2 separateFixture).
  vm_compute. reflexivity.
Defined.

(** ** A single name *)

Lemma single_name_pass r name p content :
  includes content marker = false ->
  let res :=
    if test r content
    then finish (replace r (singleBlock name p) content)
           (negb (text_eqb content (replace r (singleBlock name p) content)))
    else finish content false in
  newContent res = replace r (singleBlock name p) content /\
  modified res = test r content /\
  verdict res = (if test r content then Fixed else SkippedUnchanged) /\
  (test r content = true ->
   includes (newContent res) (requireLine name p) = true) /\
  (test r content = false -> newContent res = content).
Proof.
  intros Hm. destruct (test r content) eqn:T; cbv zeta.
  - rewrite (replace_changes r _ content Hm (singleBlock_marker name p) T).
    cbn [finish newContent modified verdict].
    repeat split; try reflexivity; [|discriminate].
    intros _. apply replace_includes; [apply singleBlock_requireLine | exact T].
  - cbn [finish newContent modified verdict].
    rewrite (test_false_replace r _ content T).
    repeat split; try reflexivity. discriminate.
Qed.

(** The rule for [internal] alone.  On a file that passes the marker
    guard, where only [internal] is detected and the same-line pattern is
    not found, the new text is the global replacement of the [internal]
    pattern by the template for [internal]; the file is modified exactly
    when that pattern is found, and then it holds the declaration of
    [internal]; when the pattern is not found although the detection
    held, the file is left as it was and counted as skipped. *)
Theorem V2_internal_only_rule (depth : nat) (content : text) :
  includes content marker = false ->
  hasInternalImport content = true ->
  hasApiImport content = false ->
  test V2.sameLineCombinedRegex content = false ->
  let res := V2.processFile depth content in
  newContent res =
    replace V2.internalImportRegex (singleBlock internal (importPath depth))
      content /\
  modified res = test V2.internalImportRegex content /\
  verdict res =
    (if test V2.internalImportRegex content then Fixed else SkippedUnchanged) /\
  (test V2.internalImportRegex content = true ->
   includes (newContent res) (requireLine internal (importPath depth)) = true) /\
  (test V2.internalImportRegex content = false -> newContent res = content).
Proof.
  intros Hm Hi Ha Hc. unfold V2.processFile. rewrite Hm, Hi, Ha, Hc.
  cbv zeta. cbn [negb andb].
  apply (single_name_pass V2.internalImportRegex internal (importPath depth)
           content Hm).
Qed.

Lemma V2_internal_only_rule_witness :
  V2.processFile 1 internalFixture =
    mkResult (singleBlock internal (str "../_generated/api.js")) true Fixed /\
  modified (V2.processFile 1 internalFixture) =
    test V2.internalImportRegex internalFixture.
Proof.
  split; [vm_compute; reflexivity|].
  apply (V2_internal_only_rule 1 internalFixture); vm_compute; reflexivity.
Defined.

(** The rule for [api] alone, likewise. *)
Theorem V2_api_only_rule (depth : nat) (content : text) :
  includes content marker = false ->
  hasInternalImport content = false ->
  hasApiImport content = true ->
  test V2.sameLineCombinedRegex content = false ->
  let res := V2.processFile depth content in
  newContent res =
    replace V2.apiImportRegex (singleBlock api (importPath depth)) content /\
  modified res = test V2.apiImportRegex content /\
  verdict res =
    (if test V2.apiImportRegex content then Fixed else SkippedUnchanged) /\
  (test V2.apiImportRegex content = true ->
   includes (newContent res) (requireLine api (importPath depth)) = true) /\
  (test V2.apiImportRegex content = false -> newContent res = content).
Proof.
  intros Hm Hi Ha Hc. unfold V2.processFile. rewrite Hm, Hi, Ha, Hc.
  cbv zeta. cbn [negb andb].
  apply (single_name_pass V2.apiImportRegex api (importPath depth)
           content Hm).
Qed.

Lemma V2_api_only_rule_witness :
  V2.processFile 0 apiFixture =
    mkResult (singleBlock api (str "./_generated/api.js")) true Fixed /\
  modified (V2.processFile 0 apiFixture) =
    test V2.apiImportRegex apiFixture.
Proof.
  split; [vm_compute; reflexivity|].
  apply (V2_api_only_rule 0 apiFixture); vm_compute; reflexivity.
Defined.

(** ** Files that do not import the generated module *)

Lemma Matches_seqs_lit l1 w l2 prev m rest :
  Matches (seqs (l1 ++ Lit w :: l2)) prev m rest -> includes m w = true.
Proof.
  intros M. apply Matches_seqs_app in M.
  destruct M as [m1 [m2 [-> [_ M]]]]. cbn [seqs] in M.
  inversion M as [| | | | ? ? ? n1 n2 ? H1 H2 | | | | | | | | |]; subst.
  inversion H1; subst. apply includes_infix. exists m1, n2. reflexivity.
Qed.

Lemma detect_needs_specifier name s :
  includes s (str "/_generated/api") = false ->
  test (detectRegex name) s = false.
Proof.
  intros Hs. destruct (test (detectRegex name) s) eqn:E; [|reflexivity].
  apply search_sound in E. destruct E as [a [m [b [-> M]]]].
  change (detectRegex name)
    with (seqs ([ Bol; Lit (str "import"); PlusCls isSpace; StarCls isDot;
                  Chr LBRACE; StarCls isSpace; Lit name; StarCls isSpace;
                  Cls isCommaOrRBrace; StarCls isDot; Lit (str "from");
                  PlusCls isSpace; Cls isQuote; Chr DOT; Opt (Chr DOT);
                  Opt (Chr SLASH); StarCls isDot ] ++
                Lit (str "/_generated/api") ::
                [ Opt (Lit (str ".js")); Cls isQuote ])) in M.
  apply Matches_seqs_lit in M.
  rewrite (includes_within a m b _ M) in Hs. discriminate.
Qed.

(** A file in which the text [/_generated/api] does not occur is left
    alone by both versions, whatever else it imports. *)
Theorem no_generated_api_no_change (depth : nat) (content : text) :
  includes content (str "/_generated/api") = false ->
  V2.processFile depth content =
    mkResult content false
      (if includes content marker then SkippedAlreadyPatched
       else SkippedNoMatch) /\
  V1.processFile depth content =
    mkResult content false
      (if includes content marker then SkippedAlreadyPatched
       else SkippedNoMatch).
Proof.
  intros Hs. unfold V2.processFile, V1.processFile, hasInternalImport,
    hasApiImport.
  rewrite !(detect_needs_specifier _ _ Hs).
  destruct (includes content marker); split; reflexivity.
Qed.

Lemma no_generated_api_no_change_witness :
  V2.processFile 0 otherModuleFixture =
    mkResult otherModuleFixture false SkippedNoMatch /\
  V1.processFile 0 otherModuleFixture =
    mkResult otherModuleFixture false SkippedNoMatch.
Proof.
  apply (no_generated_api_no_change 0 otherModuleFixture).
  vm_compute. reflexivity.
Defined.

(** ** Version one settles too *)

(** The loop body of version one: its flag is set exactly when the text
    changes; a text it changes carries the marker afterwards; and on the
    file it leaves on disk a second pass changes nothing. *)
Theorem V1_rewrite_settles (depth : nat) (content : text) :
  (modified (V1.processFile depth content) = true <->
   newContent (V1.processFile depth content) <> content) /\
  (modified (V1.processFile depth content) = true ->
   includes (newContent (V1.processFile depth content)) marker = true) /\
  newContent
    (V1.processFile depth (written content (V1.processFile depth content))) =
    written content (V1.processFile depth content) /\
  modified
    (V1.processFile depth (written content (V1.processFile depth content))) =
    false.
Proof.
  split; [apply V1_flag_exact|].
  split; [apply (V1_flag_sound depth content)|].
  split; [|apply V1_settles].
  apply (V1_flag_sound depth). apply V1_settles.
Qed.

(** ** Frame of version one *)

Lemma V1_importRegex_anchored body : line_anchored (V1.importRegex body).
Proof.
  intros prev m rest H. unfold V1.importRegex in H.
  assert (Hend : at_eol rest = true).
  { replace ([Bol; Lit (str "import"); PlusCls isSpace; Chr LBRACE;
              StarCls notRBrace; body; StarCls notRBrace; Chr RBRACE;
              PlusCls isSpace; Lit (str "from"); PlusCls isSpace]
             ++ specifier ++ [Opt (Chr SEMI); StarCls isSpace; Eol])
      with (([Bol; Lit (str "import"); PlusCls isSpace; Chr LBRACE;
              StarCls notRBrace; body; StarCls notRBrace; Chr RBRACE;
              PlusCls isSpace; Lit (str "from"); PlusCls isSpace]
             ++ specifier ++ [Opt (Chr SEMI); StarCls isSpace]) ++ [Eol]) in H
      by (rewrite <- !app_assoc; reflexivity).
    apply Matches_seqs_last in H. destruct H as [m1 [m2 [_ H]]].
    inversion H; subst; assumption. }
  apply (Matches_seqs_app [Bol; Lit (str "import")]) in H.
  destruct H as [m1 [m2 [-> [H _]]]]. inv_matches.
  cbn [app]. rewrite app_nil_r. repeat split; auto.
Qed.

(** All rewriting of version one is local to the spans matched by one of
    its replacement patterns: the new text comes from the input in one
    pass that replaces segments matched by a pattern by the template of
    that pattern and copies every other code unit, in order; a matched
    segment begins at a line start with [import] and ends at a line end. *)
Theorem V1_rewrite_frame (depth : nat) (content : text) :
  spliced (rulesV1 depth) None content
    (newContent (V1.processFile depth content)) /\
  (forall r rep, In (r, rep) (rulesV1 depth) -> line_anchored r).
Proof.
  split.
  2:{ intros r rep [[= <- _] | [[= <- _] | [[= <- _] | []]]];
        apply V1_importRegex_anchored. }
  assert (Hpass : forall r rep, In (r, rep) (rulesV1 depth) ->
            spliced (rulesV1 depth) None content (replace r rep content)).
  { intros r rep Hin. eapply spliced_mono; [|apply replace_spliced].
    intros x [<- | []]. exact Hin. }
  unfold V1.processFile.
  destruct (includes content marker); [apply spliced_refl|].
  destruct (hasInternalImport content), (hasApiImport content);
    cbv zeta; cbn [negb andb]; try apply spliced_refl.
  - destruct (test V1.combinedImportRegex content);
      rewrite finish_newContent; [|apply spliced_refl].
    apply Hpass. simpl; auto.
  - destruct (test V1.internalImportRegex content);
      rewrite finish_newContent; [|apply spliced_refl].
    apply Hpass. simpl; auto.
  - destruct (test V1.apiImportRegex content);
      rewrite finish_newContent; [|apply spliced_refl].
    apply Hpass. simpl; auto.
Qed.

(** ** The two versions over a tree *)

Lemma filter_length_le (A : Type) (f g : A -> bool) (l : list A) :
  (forall x, In x l -> f x = true -> g x = true) ->
  length (filter f l) <= length (filter g l).
Proof.
  induction l as [|x l IH]; intros H; [reflexivity|].
  assert (IH' : length (filter f l) <= length (filter g l))
    by (apply IH; intros y Hy; apply H; right; exact Hy).
  cbn [filter]. destruct (f x) eqn:Ef.
  - rewrite (H x (or_introl eq_refl) Ef). cbn [length]. lia.
  - destruct (g x); cbn [length]; lia.
Qed.

(** Version two loses no fix of version one: over a tree whose listed
    files have no name in a brace list that merely contains [internal] or
    [api], every file version one reports as fixed is reported as fixed
    by version two. *)
Theorem V2_fixes_what_V1_fixes (root : node) (files : list path)
        (s1 s2 : runState) :
  wellFormed root = true ->
  findTsFiles root = Some files ->
  noGluedNames root files = true ->
  main V1.processFile root = Some s1 ->
  main V2.processFile root = Some s2 ->
  incl (fixedLog s1) (fixedLog s2) /\ fixedCount s1 <= fixedCount s2.
Proof.
  intros Hwf Hf Hg H1 H2. destruct root as [|entries]; [discriminate|].
  assert (E : files = findTsFilesIn [] (Dir entries) [])
    by (unfold findTsFiles in Hf; congruence).
  destruct (main_run V1.processFile entries Hwf)
    as [s1' [R1 [_ [_ [_ [L1 [C1 _]]]]]]].
  destruct (main_run V2.processFile entries Hwf)
    as [s2' [R2 [_ [_ [_ [L2 [C2 _]]]]]]].
  rewrite H1 in R1. injection R1 as <-.
  rewrite H2 in R2. injection R2 as <-.
  rewrite <- E in L1, L2.
  assert (Himp : forall p, In p files ->
            fixedAt V1.processFile (Dir entries) p = true ->
            fixedAt V2.processFile (Dir entries) p = true).
  { intros p Hp. unfold noGluedNames in Hg.
    rewrite forallb_forall in Hg. specialize (Hg p Hp). unfold fixedAt.
    destruct (readFileSync p (Dir entries)) as [c|]; [|discriminate].
    apply andb_true_iff in Hg as [Gi Ga].
    apply negb_true_iff in Gi. apply negb_true_iff in Ga.
    apply V2_modifies_where_V1_does; assumption. }
  split.
  - intros p Hp. rewrite L1 in Hp. rewrite L2.
    apply filter_In in Hp as [Hp Hfix]. apply filter_In. auto.
  - rewrite C1, C2, L1, L2. apply filter_length_le. exact Himp.
Qed.

Lemma V2_fixes_what_V1_fixes_witness :
  exists s1 s2,
    main V1.processFile sampleTree = Some s1 /\
    main V2.processFile sampleTree = Some s2 /\
    incl (fixedLog s1) (fixedLog s2) /\ fixedCount s1 <= fixedCount s2.
Proof.
  destruct (main V1.processFile sampleTree) as [s1|] eqn:E1;
    [|vm_compute in E1; discriminate].
  destruct (main V2.processFile sampleTree) as [s2|] eqn:E2;
    [|vm_compute in E2; discriminate].
  exists s1, s2. split; [reflexivity|]. split; [reflexivity|].
  apply (V2_fixes_what_V1_fixes sampleTree
           [ [str "tasks.ts"]; [str "lib"; str "jobs.ts"]; [str "plain.ts"] ]
           s1 s2); try (vm_compute; reflexivity); assumption.
Defined.
